(** * cpool: a fixed-size worker pool with futures and callbacks

    Shallow embedding of [cpool::TaskManager] (cpool_task.cpp and
    cpool_task.hpp).  The class is modelled as a record holding the
    members of the C++ class, the heap of shared states behind the
    futures it handed out, and a history of observable events.  Every
    critical section guarded by [taskMutex] is one atomic transition;
    worker threads are small state machines that are advanced one
    transition at a time by a schedule, so that every interleaving of
    the workers is a list of worker indices. *)

From stdpp Require Import base option list strings.
From Stdlib Require Import ZArith Lia.

Module cpool.

(** ** Values, failures and callables *)

(** What task callables take and return.  [VObj] stands for a class
    instance such as the demo's [Result] or [Component]. *)
Inductive value :=
  | VVoid
  | VInt (n : Z)
  | VStr (s : string)
  | VObj (class : string) (fields : list (string * string)).

(** A C++ exception in flight. *)
Inductive exn := Exn (what : string).

(** The result of calling a callable: it returns or it throws. *)
Inductive outcome :=
  | Returned (v : value)
  | Raised (e : exn).

(** A callable handle as the templates see it.  [is_member_pointer]
    is the compile-time trait used for overload selection; [target]
    is [None] exactly when [handle == nullptr].  A member function
    takes the bound instance as its first argument, as
    [std::mem_fn(f)(instance, args...)] does. *)
Record callable := Callable {
  is_member_pointer : bool;
  target : option (list value → outcome)
}.

Definition is_nullptr (c : callable) : bool :=
  match target c with None => true | Some _ => false end.

(** [invoke] (cpool_task.hpp, three overloads): [f(args...)] for a
    function object or a function pointer, [std::mem_fn(f)(args...)]
    for a member pointer.  It is only reached behind the null check,
    so it takes the non-null target. *)
Definition invoke (f : list value → outcome) (args : list value) : outcome :=
  f args.

(** ** Futures and packaged tasks *)

(** The shared state of a promise/future pair. *)
Inductive shared_state :=
  | Pending
  | Ready (o : outcome).

(** A [std::future]: default-constructed ([return {}]) or attached to
    the shared state with the given index. *)
Inductive future :=
  | InvalidFuture
  | Future (id : nat).

Definition valid (f : future) : bool :=
  match f with InvalidFuture => false | Future _ => true end.

(** Events that an observer of the pool can see. *)
Inductive event :=
  | Enqueued (id : nat)
  | Dequeued (id : nat)
  | Invoked (id : nat)
  | CalledBack (id : nat) (v : value).

(** [std::packaged_task]: the shared state it fulfils and the lambda
    it stores.  The lambdas of [dispatch] and [dispatchCallback] all
    have the shape "invoke the task callable on the captured
    arguments, then maybe hand the result to the callback": [call] is
    the first half, [then_callback] the second. *)
Record packaged_task := PackagedTask {
  promise : nat;
  call : unit → outcome;
  then_callback : option (value → outcome)
}.

(** What a [packaged_task<void()>] stores for a lambda that ends by
    calling the callback: nothing, or the callback's failure. *)
Definition void_result (o : outcome) : outcome :=
  match o with
  | Raised e => Raised e
  | Returned _ => Returned VVoid
  end.

(** Running the stored lambda: the events it causes and what the
    packaged task stores in its shared state.  A failure of the task
    callable leaves the lambda before the callback line. *)
Definition run_packaged (t : packaged_task) : list event * outcome :=
  match call t () with
  | Raised e => ([Invoked (promise t)], Raised e)
  | Returned result =>
      match then_callback t with
      | None => ([Invoked (promise t)], Returned result)
      | Some callback =>
          ([Invoked (promise t); CalledBack (promise t) result],
           void_result (callback result))
      end
  end.

(** Storing a result is set-once: a shared state that is already
    satisfied is not overwritten.  (Calling the same packaged task a
    second time would throw [std::future_error]; [pool_inv] below
    shows that a worker only ever calls a task whose shared state is
    pending.) *)
Definition set_result (id : nat) (o : outcome) (ps : list shared_state)
  : list shared_state :=
  match ps !! id with
  | Some Pending => <[id := Ready o]> ps
  | _ => ps
  end.

(** ** Worker threads *)

(** Where a worker thread is in its loop (cpool_task.cpp, 33-59).  A
    worker leaves [Blocked] when it is notified; a spurious wake-up
    would only make it test the predicate again and is not a
    transition of its own. *)
Inductive wstate :=
  | NoThread                              (* default-constructed std::thread *)
  | AtLock                                (* about to take taskLock and test the predicate *)
  | Blocked                               (* inside taskCond.wait, lock released *)
  | Popped (task : option packaged_task)  (* left the critical section with a unit *)
  | Exited.                               (* returned from the lambda *)

Record thread := Thread {
  joinable : bool;
  at_ : wstate
}.

Definition default_thread : thread := Thread false NoThread.

Definition is_blocked (t : thread) : bool :=
  match at_ t with Blocked => true | _ => false end.

Definition is_holding (t : thread) : bool :=
  match at_ t with Popped _ => true | _ => false end.

Definition is_at_lock (t : thread) : bool :=
  match at_ t with AtLock => true | _ => false end.

(** A worker that has been spawned and has not returned. *)
Definition is_live (t : thread) : bool :=
  match at_ t with AtLock | Blocked | Popped _ => true | _ => false end.

(** ** The pool *)

Record TaskManager := Pool {
  isRunning : bool;
  poolSize : nat;
  tasks : list (option packaged_task);  (* front of the queue first; None is an empty std::function *)
  workers : list thread;
  taskMutex : bool;                     (* true while some thread holds it *)
  promises : list shared_state;         (* shared states created so far *)
  history : list event
}.

Definition set_isRunning (b : bool) (s : TaskManager) : TaskManager :=
  Pool b (poolSize s) (tasks s) (workers s) (taskMutex s) (promises s) (history s).

Definition set_tasks (q : list (option packaged_task)) (s : TaskManager) : TaskManager :=
  Pool (isRunning s) (poolSize s) q (workers s) (taskMutex s) (promises s) (history s).

Definition set_workers (ws : list thread) (s : TaskManager) : TaskManager :=
  Pool (isRunning s) (poolSize s) (tasks s) ws (taskMutex s) (promises s) (history s).

Definition set_taskMutex (b : bool) (s : TaskManager) : TaskManager :=
  Pool (isRunning s) (poolSize s) (tasks s) (workers s) b (promises s) (history s).

Definition set_promises (ps : list shared_state) (s : TaskManager) : TaskManager :=
  Pool (isRunning s) (poolSize s) (tasks s) (workers s) (taskMutex s) ps (history s).

Definition log (evs : list event) (s : TaskManager) : TaskManager :=
  Pool (isRunning s) (poolSize s) (tasks s) (workers s) (taskMutex s) (promises s)
       (history s ++ evs).

Definition set_worker (i : nat) (w : wstate) (s : TaskManager) : TaskManager :=
  set_workers (alter (λ t, Thread (joinable t) w) i (workers s)) s.

(** [TaskManager::TaskManager(size)]; [hw] is what
    [std::thread::hardware_concurrency()] answers.  [workers {poolSize}]
    runs while [poolSize] still equals [size], and builds that many
    default-constructed threads. *)
Definition new_TaskManager (size hw : nat) : TaskManager :=
  Pool false (if decide (size = 0) then hw else size) []
       (replicate size default_thread) false [] [].

(** *** Condition variable *)

Definition wake (t : thread) : thread :=
  if is_blocked t then Thread (joinable t) AtLock else t.

(** [taskCond.notify_one()]: one blocked worker, if any, is released.
    Which one is the runtime's choice; [pick] is that choice, and
    falls back on the first blocked worker when it names none. *)
Definition notify_one (pick : nat) (ws : list thread) : list thread :=
  match ws !! pick with
  | Some (Thread _ Blocked) => alter wake pick ws
  | _ =>
      match list_find (λ t, is_blocked t = true) ws with
      | Some (j, _) => alter wake j ws
      | None => ws
      end
  end.

(** [taskCond.notify_all()]. *)
Definition notify_all (ws : list thread) : list thread := wake <$> ws.

(** *** Critical sections *)

(** A block that starts by constructing a [std::unique_lock] on
    [taskMutex].  It cannot be entered ([None]) while another thread
    holds the mutex; its body runs with the mutex held, and the mutex
    is released when the block is left. *)
Definition with_lock (body : TaskManager → TaskManager) (s : TaskManager)
  : option TaskManager :=
  if taskMutex s then None
  else Some (set_taskMutex false (body (set_taskMutex true s))).

(** *** Dispatching *)

(** [std::make_shared<std::packaged_task<R()>>(lambda)] followed by
    [get_future()]: a fresh shared state. *)
Definition make_packaged_task (body : unit → outcome)
    (cb : option (value → outcome)) (s : TaskManager)
  : packaged_task * TaskManager :=
  (PackagedTask (length (promises s)) body cb,
   set_promises (promises s ++ [Pending]) s).

Definition get_future (t : packaged_task) : future := Future (promise t).

(** [TaskManager::pushTask]. *)
Definition pushTask (pick : nat) (newTask : packaged_task) (s : TaskManager)
  : option TaskManager :=
  with_lock (λ s,
    let s := log [Enqueued (promise newTask)] (set_tasks (tasks s ++ [Some newTask]) s) in
    set_workers (notify_one pick (workers s)) s) s.

(** [TaskManager::dispatch]. *)
Definition dispatch (pick : nat) (function : callable) (args : list value)
    (s : TaskManager) : option (future * TaskManager) :=
  match target function with
  | None => Some (InvalidFuture, s)
  | Some f =>
      let '(newTask, s) := make_packaged_task (λ _, invoke f args) None s in
      let taskResult := get_future newTask in
      s ← pushTask pick newTask s;
      Some (taskResult, s)
  end.

(** [TaskManager::dispatchCallback], first overload: the callback is
    not a member pointer and is called as [callback(result)]. *)
Definition dispatchCallback (pick : nat) (function callback : callable)
    (args : list value) (s : TaskManager) : option (future * TaskManager) :=
  match target function, target callback with
  | Some f, Some cb =>
      let '(newTask, s) :=
        make_packaged_task (λ _, invoke f args) (Some (λ result, cb [result])) s in
      let taskResult := get_future newTask in
      s ← pushTask pick newTask s;
      Some (taskResult, s)
  | _, _ => Some (InvalidFuture, s)
  end.

(** Second overload: free task, member callback called through
    [instance]. *)
Definition dispatchCallback_member (pick : nat) (function callback : callable)
    (instance : value) (args : list value) (s : TaskManager)
  : option (future * TaskManager) :=
  match target function, target callback with
  | Some f, Some cb =>
      let '(newTask, s) :=
        make_packaged_task (λ _, invoke f args)
                           (Some (λ result, invoke cb [instance; result])) s in
      let taskResult := get_future newTask in
      s ← pushTask pick newTask s;
      Some (taskResult, s)
  | _, _ => Some (InvalidFuture, s)
  end.

(** Third overload: member task and member callback, both called
    through [instance]. *)
Definition dispatchCallback_members (pick : nat) (function callback : callable)
    (instance : value) (args : list value) (s : TaskManager)
  : option (future * TaskManager) :=
  match target function, target callback with
  | Some f, Some cb =>
      let '(newTask, s) :=
        make_packaged_task (λ _, invoke f (instance :: args))
                           (Some (λ result, invoke cb [instance; result])) s in
      let taskResult := get_future newTask in
      s ← pushTask pick newTask s;
      Some (taskResult, s)
  | _, _ => Some (InvalidFuture, s)
  end.

(** *** Workers *)

(** Calling the popped unit (cpool_task.cpp, 53-58): an empty
    function object is skipped. *)
Definition call_unit (u : option packaged_task) (s : TaskManager) : TaskManager :=
  match u with
  | None => s
  | Some t =>
      let '(evs, o) := run_packaged t in
      set_promises (set_result (promise t) o (promises s)) (log evs s)
  end.

Definition dequeue_events (u : option packaged_task) : list event :=
  match u with None => [] | Some t => [Dequeued (promise t)] end.

(** One transition of worker [i]; [None] when the worker cannot move
    (it is blocked in [wait], it has returned, there is no such
    thread, or it needs the mutex and the mutex is taken). *)
Definition worker_step (i : nat) (s : TaskManager) : option TaskManager :=
  match workers s !! i with
  | None => None
  | Some t =>
      match at_ t with
      | AtLock =>
          if taskMutex s then None
          else if negb (isRunning s) || negb (bool_decide (tasks s = [])) then
            (* the wait predicate holds *)
            if negb (isRunning s) then Some (set_worker i Exited s)
            else
              match tasks s with
              | task :: rest =>
                  Some (set_worker i (Popped task)
                          (log (dequeue_events task) (set_tasks rest s)))
              | [] => None
              end
          else Some (set_worker i Blocked s)
      | Popped task => Some (set_worker i AtLock (call_unit task s))
      | Blocked | Exited | NoThread => None
      end
  end.

(** A schedule is the list of workers that move, in order. *)
Fixpoint run (sched : list nat) (s : TaskManager) : option TaskManager :=
  match sched with
  | [] => Some s
  | i :: sched => s ← worker_step i s; run sched s
  end.

(** No worker can move. *)
Definition quiescent (s : TaskManager) : Prop :=
  ∀ i, worker_step i s = None.

(** *** Lifecycle *)

(** The loop of [TaskManager::start]: [emplace_back] makes a joinable
    handle whose thread has not run yet; the barrier spins while the
    handle is not joinable. *)
Fixpoint spawn_workers (n : nat) (s : TaskManager) : option TaskManager :=
  match n with
  | 0 => Some s
  | S n =>
      let s := set_workers (workers s ++ [Thread true AtLock]) s in
      match last (workers s) with
      | Some newWorker =>
          if joinable newWorker then spawn_workers n s else None
      | None => None
      end
  end.

(** [TaskManager::start]. *)
Definition start (s : TaskManager) : option TaskManager :=
  spawn_workers (poolSize s) (set_isRunning true s).

(** A thread runs on its own until it has returned. *)
Fixpoint finish (fuel : nat) (i : nat) (s : TaskManager) : option TaskManager :=
  match at_ <$> workers s !! i with
  | Some Exited => Some s
  | _ =>
      match fuel with
      | 0 => None
      | S fuel => s ← worker_step i s; finish fuel i s
      end
  end.

(** [worker.join()]: wait for the thread to return, after which the
    handle is no longer joinable. *)
Definition join (fuel : nat) (i : nat) (s : TaskManager) : option TaskManager :=
  s ← finish fuel i s;
  Some (set_workers (alter (λ t, Thread false (at_ t)) i (workers s)) s).

Definition join_if_joinable (fuel : nat) (s : option TaskManager) (i : nat)
  : option TaskManager :=
  s ← s;
  match workers s !! i with
  | Some worker => if joinable worker then join fuel i s else Some s
  | None => Some s
  end.

(** The critical section of [TaskManager::stop]. *)
Definition stop_signal (s : TaskManager) : option TaskManager :=
  with_lock (λ s,
    let s := set_isRunning false s in
    set_workers (notify_all (workers s)) s) s.

(** [TaskManager::stop]; [fuel] bounds the transitions a joined
    thread may still take. *)
Definition stop (fuel : nat) (s : TaskManager) : option TaskManager :=
  s ← stop_signal s;
  foldl (join_if_joinable fuel) (Some s) (seq 0 (length (workers s))).

(** [TaskManager::~TaskManager]. *)
Definition destroy (fuel : nat) (s : TaskManager) : option TaskManager :=
  if isRunning s then stop fuel s else Some s.

(** ** Transitions, schedules and clients *)

(** The paths through the body of the worker loop, as a relation:
    [worker_step i s = Some s'] exactly when [transition i s s']. *)
Inductive transition (i : nat) (s : TaskManager) : TaskManager → Prop :=
  | worker_returns t :
      workers s !! i = Some t → at_ t = AtLock → taskMutex s = false →
      isRunning s = false →
      transition i s (set_worker i Exited s)
  | worker_waits t :
      workers s !! i = Some t → at_ t = AtLock → taskMutex s = false →
      isRunning s = true → tasks s = [] →
      transition i s (set_worker i Blocked s)
  | worker_pops t task rest :
      workers s !! i = Some t → at_ t = AtLock → taskMutex s = false →
      isRunning s = true → tasks s = task :: rest →
      transition i s (set_worker i (Popped task)
                        (log (dequeue_events task) (set_tasks rest s)))
  | worker_calls t task :
      workers s !! i = Some t → at_ t = Popped task →
      transition i s (set_worker i AtLock (call_unit task s)).

(** The three ways of calling [dispatchCallback]. *)
Inductive callback_call :=
  | FreeCallback (function callback : callable) (args : list value)
  | MemberCallback (function callback : callable) (instance : value) (args : list value)
  | MemberTaskCallback (function callback : callable) (instance : value) (args : list value).

Definition dispatchCallback_call (pick : nat) (c : callback_call) (s : TaskManager)
  : option (future * TaskManager) :=
  match c with
  | FreeCallback function callback args =>
      dispatchCallback pick function callback args s
  | MemberCallback function callback instance args =>
      dispatchCallback_member pick function callback instance args s
  | MemberTaskCallback function callback instance args =>
      dispatchCallback_members pick function callback instance args s
  end.

(** The [enable_if] condition of each overload. *)
Definition enabled (c : callback_call) : bool :=
  match c with
  | FreeCallback _ callback _ => negb (is_member_pointer callback)
  | MemberCallback function callback _ _ =>
      negb (is_member_pointer function) && is_member_pointer callback
  | MemberTaskCallback function callback _ _ =>
      is_member_pointer function && is_member_pointer callback
  end.

(** Overload resolution for [dispatchCallback(function, callback, rest...)]:
    [None] when no overload is viable. *)
Definition resolve (function callback : callable) (rest : list value)
  : option callback_call :=
  if negb (is_member_pointer callback) then Some (FreeCallback function callback rest)
  else
    match rest with
    | instance :: args =>
        Some (if is_member_pointer function
              then MemberTaskCallback function callback instance args
              else MemberCallback function callback instance args)
    | [] => None
    end.

Definition task_of (c : callback_call) : callable :=
  match c with
  | FreeCallback f _ _ | MemberCallback f _ _ _ | MemberTaskCallback f _ _ _ => f
  end.

Definition callback_of (c : callback_call) : callable :=
  match c with
  | FreeCallback _ cb _ | MemberCallback _ cb _ _ | MemberTaskCallback _ cb _ _ => cb
  end.

(** The arguments the task callable is invoked on. *)
Definition task_args (c : callback_call) : list value :=
  match c with
  | FreeCallback _ _ args | MemberCallback _ _ _ args => args
  | MemberTaskCallback _ _ instance args => instance :: args
  end.

(** The arguments the callback is invoked on, given the task's result. *)
Definition callback_args (c : callback_call) (result : value) : list value :=
  match c with
  | FreeCallback _ _ _ => [result]
  | MemberCallback _ _ instance _ | MemberTaskCallback _ _ instance _ =>
      [instance; result]
  end.

(** What can happen to a running pool: a worker moves, or a client
    thread dispatches. *)
Inductive action :=
  | Work (i : nat)
  | Dispatch (pick : nat) (function : callable) (args : list value)
  | DispatchCallback (pick : nat) (c : callback_call).

Definition perform (a : action) (s : TaskManager) : option TaskManager :=
  match a with
  | Work i => worker_step i s
  | Dispatch pick function args => snd <$> dispatch pick function args s
  | DispatchCallback pick c => snd <$> dispatchCallback_call pick c s
  end.

Fixpoint execute (acts : list action) (s : TaskManager) : option TaskManager :=
  match acts with
  | [] => Some s
  | a :: acts => s ← perform a s; execute acts s
  end.

(** The pools that the operations of the class and the workers can
    produce. *)
Inductive reachable : TaskManager → Prop :=
  | reach_new size hw : reachable (new_TaskManager size hw)
  | reach_start s s' : reachable s → start s = Some s' → reachable s'
  | reach_stop fuel s s' : reachable s → stop fuel s = Some s' → reachable s'
  | reach_perform a s s' : reachable s → perform a s = Some s' → reachable s'.

(** A scheduler that always moves the first worker that can move. *)
Fixpoint drain (fuel : nat) (s : TaskManager) : list nat :=
  match fuel with
  | 0 => []
  | S fuel =>
      match list_find (λ i, is_Some (worker_step i s)) (seq 0 (length (workers s))) with
      | Some (_, i) =>
          match worker_step i s with
          | Some s' => i :: drain fuel s'
          | None => []
          end
      | None => []
      end
  end.

(** ** Reading the history *)

Definition enqueued (h : list event) : list nat :=
  omap (λ e, match e with Enqueued fid => Some fid | _ => None end) h.

Definition dequeued (h : list event) : list nat :=
  omap (λ e, match e with Dequeued fid => Some fid | _ => None end) h.

Definition invoked (h : list event) : list nat :=
  omap (λ e, match e with Invoked fid => Some fid | _ => None end) h.

Definition event_id (e : event) : nat :=
  match e with
  | Enqueued fid | Dequeued fid | Invoked fid | CalledBack fid _ => fid
  end.

(** The execution events of the task with shared state [fid]. *)
Definition about (fid : nat) (e : event) : bool :=
  match e with
  | Invoked i | CalledBack i _ => bool_decide (i = fid)
  | _ => false
  end.

Definition execution_of (fid : nat) (h : list event) : list event :=
  filter (λ e, about fid e = true) h.

(** Shared states of the tasks in the queue, front first. *)
Definition queued_ids (s : TaskManager) : list nat :=
  promise <$> omap (λ u, u) (tasks s).

Definition held (t : thread) : option packaged_task :=
  match at_ t with Popped u => u | _ => None end.

(** Shared states of the tasks that workers have popped and not yet run. *)
Definition held_ids (s : TaskManager) : list nat :=
  promise <$> omap held (workers s).

(** ** Invariants *)

Definition is_active (t : thread) : bool := is_at_lock t || is_holding t.

(** What holds of a pool however it is driven. *)
Record pool_inv (s : TaskManager) : Prop := PoolInv {
  (* between two transitions nobody is inside a critical section *)
  inv_mutex : taskMutex s = false;
  (* a joinable handle has a thread *)
  inv_handles : Forall (λ w, joinable w = true → at_ w ≠ NoThread) (workers s);
  (* no worker sleeps through a shutdown *)
  inv_awake : isRunning s = false → Forall (λ w, is_blocked w = false) (workers s);
  (* no worker sleeps while work is queued, unless another one is on its way *)
  inv_wakeup :
    tasks s ≠ [] → Exists (λ w, is_blocked w = true) (workers s) →
    Exists (λ w, is_active w = true) (workers s);
  (* the queue is what was enqueued and not yet dequeued, in order *)
  inv_fifo : enqueued (history s) = dequeued (history s) ++ queued_ids s;
  (* a dequeued task has been run or is in the hands of a worker *)
  inv_held : dequeued (history s) ≡ₚ invoked (history s) ++ held_ids s;
  inv_once : NoDup (enqueued (history s));
  (* the history only speaks of shared states that exist *)
  inv_alloc : Forall (λ e, event_id e < length (promises s)) (history s);
  inv_pending :
    ∀ fid, fid < length (promises s) → fid ∉ invoked (history s) →
           promises s !! fid = Some Pending
}.

(** What holds of one packaged task [T] from the moment it is pushed. *)
Record task_inv (T : packaged_task) (s : TaskManager) : Prop := TaskInv {
  ti_enqueued : promise T ∈ enqueued (history s);
  ti_queue : ∀ t, Some t ∈ tasks s → promise t = promise T → t = T;
  ti_held : ∀ w t, w ∈ workers s → held w = Some t → promise t = promise T → t = T;
  ti_result :
    promise T ∈ invoked (history s) →
    promises s !! promise T = Some (Ready (run_packaged T).2);
  ti_events :
    execution_of (promise T) (history s) =
    if decide (promise T ∈ invoked (history s)) then (run_packaged T).1 else []
}.

(** What [stop] relies on once its critical section is over. *)
Record stopping (s : TaskManager) : Prop := Stopping {
  st_mutex : taskMutex s = false;
  st_flag : isRunning s = false;
  st_awake : Forall (λ w, is_blocked w = false) (workers s);
  st_handles : Forall (λ w, joinable w = true → at_ w ≠ NoThread) (workers s)
}.

(** A handle after the loop of [stop]: joined if it was joinable. *)
Definition joined (t : thread) : thread :=
  if joinable t then Thread false Exited else t.



(** The pool is running and has a worker to run tasks. *)
Definition serving (s : TaskManager) : Prop :=
  isRunning s = true ∧ Exists (λ w, is_live w = true) (workers s).

(** A bound on the transitions the workers can still make on their own. *)
Definition weight (t : thread) : nat :=
  match at_ t with AtLock => 1 | Popped _ => 2 | _ => 0 end.

Definition measure (s : TaskManager) : nat :=
  2 * length (tasks s) + sum_list_with weight (workers s).

(** ** Concrete pools used in examples *)

(** The demo's first task: [[] (int a) -> int { return 2; }]. *)
Definition returns_two : callable :=
  Callable false (Some (λ _, Returned (VInt 2))).

(** A null function pointer, [void ( *cbfn)(Result) = NULL]. *)
Definition null_function : callable := Callable false None.

(** A one-worker pool on which [start], one [dispatch] and the
    critical section of [stop] have run before the worker moved. *)
Definition queued_at_shutdown : TaskManager :=
  Pool false 1 [Some (PackagedTask 0 (λ _, invoke (λ _, Returned (VInt 2)) [VInt 1]) None)]
       [default_thread; Thread true AtLock] false [Pending] [Enqueued 0].

(** A pool of size one after [start], and after the demo's first
    [dispatch] on it. *)
Definition started_pool : TaskManager :=
  Pool true 1 [] [default_thread; Thread true AtLock] false [] [].

Definition scenario_a : TaskManager :=
  Pool true 1 [Some (PackagedTask 0 (λ _, invoke (λ _, Returned (VInt 2)) [VInt 1]) None)]
       [default_thread; Thread true AtLock] false [Pending] [Enqueued 0].

(** The demo's third call: a task that returns 4 and a callback that
    prints its argument. *)
Definition returns_four_then_print : callback_call :=
  FreeCallback (Callable false (Some (λ _, Returned (VInt 4))))
               (Callable false (Some (λ _, Returned VVoid))) [VInt 3].

Definition scenario_c : TaskManager :=
  Pool true 1
       [Some (PackagedTask 0 (λ _, invoke (λ _, Returned (VInt 4)) [VInt 3])
                (Some (λ result, invoke (λ _, Returned VVoid) [result])))]
       [default_thread; Thread true AtLock] false [Pending] [Enqueued 0].

(** [scenario_a] once its worker has run the task and gone to sleep. *)
Definition scenario_a_done : TaskManager :=
  Pool true 1 [] [default_thread; Thread true Blocked] false
       [Ready (Returned (VInt 2))] [Enqueued 0; Dequeued 0; Invoked 0].

(** A worker of a running pool that finds an empty function object at
    the front of the queue. *)
Definition null_unit_queued : TaskManager :=
  Pool true 1 [None] [default_thread; Thread true AtLock] false [] [].

(** ** Statements about the worker loop and the callback *)

(** What [dispatchCallback] promises about the task with shared state
    [fid] once it has run: the callback saw the value the task
    callable returned, after it returned, or the task callable failed
    and the failure is in the shared state. *)
Definition delivered (c : callback_call) (f cb : list value → outcome)
    (fid : nat) (s : TaskManager) : Prop :=
  match f (task_args c) with
  | Returned v =>
      execution_of fid (history s) = [Invoked fid; CalledBack fid v]
      ∧ promises s !! fid = Some (Ready (void_result (cb (callback_args c v))))
  | Raised e =>
      execution_of fid (history s) = [Invoked fid]
      ∧ promises s !! fid = Some (Ready (Raised e))
  end.

(** The reading of the worker loop under which a worker returns only
    once shutdown was requested and the queue is empty. *)
Definition exits_only_when_drained : Prop :=
  ∀ i s s',
    worker_step i s = Some s' →
    at_ <$> workers s' !! i = Some Exited →
    isRunning s = false ∧ tasks s = [].

(** ** The whole life of a pool *)

(** What the owner of a pool, its clients and its workers can do to
    it, in any order. *)
Inductive op :=
  | Client (a : action)
  | Start
  | Stop (fuel : nat).

Definition operate1 (o : op) (s : TaskManager) : option TaskManager :=
  match o with
  | Client a => perform a s
  | Start => start s
  | Stop fuel => stop fuel s
  end.

Fixpoint operate (ops : list op) (s : TaskManager) : option TaskManager :=
  match ops with
  | [] => Some s
  | o :: ops => s ← operate1 o s; operate ops s
  end.

(** What every operation keeps of [poolSize] and of the shared
    states: the size is fixed, no shared state is removed, and a
    stored result stays. *)
Record kept (s s' : TaskManager) : Prop := Kept {
  kept_poolSize : poolSize s' = poolSize s;
  kept_length : length (promises s) ≤ length (promises s');
  kept_ready : ∀ k r, promises s !! k = Some (Ready r) → promises s' !! k = Some (Ready r)
}.

(** A call of [dispatch] or of [dispatchCallback] on [s] that
    returned [fut] and left the pool [s']. *)
Definition submitted (s : TaskManager) (fut : future) (s' : TaskManager) : Prop :=
  (∃ pick function args, dispatch pick function args s = Some (fut, s'))
  ∨ (∃ pick c, dispatchCallback_call pick c s = Some (fut, s')).

(** The workers asleep in [taskCond.wait]. *)
Definition blocked_count (s : TaskManager) : nat :=
  length (filter (λ w, is_blocked w = true) (workers s)).

(** A thread that has not returned has a joinable handle, so that
    [stop] joins it. *)
Definition handles_live (s : TaskManager) : Prop :=
  Forall (λ w, is_live w = true → joinable w = true) (workers s).

(** Nothing is queued and no worker holds a task. *)
Definition idle (s : TaskManager) : Prop := tasks s = [] ∧ held_ids s = [].

(** ** The client side of a future *)

(** [future::wait()]: the calling thread is suspended while the
    workers run ([sched]) and resumes once the shared state is ready.
    [None]: the future is invalid, or the schedule ends with the
    shared state still pending. *)
Definition wait (fut : future) (sched : list nat) (s : TaskManager)
  : option TaskManager :=
  match fut with
  | InvalidFuture => None
  | Future fid =>
      s' ← run sched s;
      match promises s' !! fid with
      | Some (Ready _) => Some s'
      | _ => None
      end
  end.

(** [future::get()] on a ready shared state: the value, or the
    exception it rethrows. *)
Definition get (fut : future) (s : TaskManager) : option outcome :=
  match fut with
  | InvalidFuture => None
  | Future fid =>
      match promises s !! fid with
      | Some (Ready o) => Some o
      | _ => None
      end
  end.

(** The packaged tasks that [dispatch] and [dispatchCallback] build
    for the shared state [fid]. *)
Definition dispatch_task (fid : nat) (f : list value → outcome) (args : list value)
  : packaged_task :=
  PackagedTask fid (λ _, invoke f args) None.

Definition dispatchCallback_task (fid : nat) (c : callback_call)
    (f cb : list value → outcome) : packaged_task :=
  PackagedTask fid (λ _, invoke f (task_args c))
               (Some (λ result, invoke cb (callback_args c result))).

(** Where the only task [T] of an otherwise idle pool is: in the
    queue, in the hands of a worker, or done.  [h] and [ps] are the
    history and the shared states from before [T] was made. *)
Inductive round (h : list event) (ps : list shared_state) (T : packaged_task)
    (s : TaskManager) : Prop :=
  | round_queued :
      tasks s = [Some T] → omap held (workers s) = [] →
      history s = h ++ [Enqueued (promise T)] →
      promises s = ps ++ [Pending] → round h ps T s
  | round_held :
      tasks s = [] → omap held (workers s) = [T] →
      history s = h ++ [Enqueued (promise T); Dequeued (promise T)] →
      promises s = ps ++ [Pending] → round h ps T s
  | round_done :
      tasks s = [] → omap held (workers s) = [] →
      history s = h ++ [Enqueued (promise T); Dequeued (promise T)] ++ (run_packaged T).1 →
      promises s = ps ++ [Ready (run_packaged T).2] → round h ps T s.

(** ** The demo program (main.cpp) *)

(** [class Result] with its member [value], and the [Component] on
    the stack of [main]. *)
Definition Result (v : string) : value := VObj "Result" [("value", v)].

Definition caller : value := VObj "Component" [].

(** [Component::taskFunc] and [Component::callback]; what they print
    is not modelled. *)
Definition Component_taskFunc : callable :=
  Callable true (Some (λ _, Returned (Result "result"))).

Definition Component_callback : callable :=
  Callable true (Some (λ _, Returned VVoid)).

(** The lambdas of [main]: the task that returns 4, the two printing
    callbacks, and the local [taskFunc]. *)
Definition returns_four : callable := Callable false (Some (λ _, Returned (VInt 4))).

Definition prints : callable := Callable false (Some (λ _, Returned VVoid)).

Definition taskFunc : callable :=
  Callable false (Some (λ _, Returned (Result "result"))).

(** A call [pool.dispatchCallback(function, callback, rest...)] as
    the compiler resolves it. *)
Definition dispatchCallback_resolved (pick : nat) (function callback : callable)
    (rest : list value) (s : TaskManager) : option (future * TaskManager) :=
  c ← resolve function callback rest; dispatchCallback_call pick c s.

(** What the main thread prints from the futures, and the pool when
    [main] has returned. *)
Record demo_output := DemoOutput {
  result_a : outcome;          (* RESULT = ..., first block *)
  result_b : outcome;          (* RESULT = ..., second block *)
  invalid_reported : bool;     (* the line of the else branch, last block *)
  pool_at_exit : TaskManager
}.

(** [main]: [hw] is the answer of [hardware_concurrency()], [pick k]
    the worker that the notification of the [k]-th call reaches,
    [sched k] what the workers do while the main thread waits for the
    [k]-th future, [fuel] the bound of [stop].  The destructor of
    [pool] runs when [main] returns. *)
Definition main (hw : nat) (pick : nat → nat) (sched : nat → list nat) (fuel : nat)
  : option demo_output :=
  pool ← start (new_TaskManager 0 hw);
  '(ret, pool) ← dispatch (pick 0) returns_two [VInt 1] pool;
  pool ← wait ret (sched 0) pool;
  a ← get ret pool;
  '(ret, pool) ← dispatch (pick 1) Component_taskFunc [caller; VInt 1; VStr "test"] pool;
  pool ← wait ret (sched 1) pool;
  b ← get ret pool;
  '(ret, pool) ← dispatchCallback_resolved (pick 2) returns_four prints [VInt 3] pool;
  pool ← wait ret (sched 2) pool;
  '(ret, pool) ← dispatchCallback_resolved (pick 3) Component_taskFunc Component_callback
                    [caller; VInt 1; VStr "test"] pool;
  pool ← wait ret (sched 3) pool;
  '(ret, pool) ← dispatchCallback_resolved (pick 4) Component_taskFunc prints
                    [caller; VInt 1; VStr "test"] pool;
  pool ← wait ret (sched 4) pool;
  '(ret, pool) ← dispatchCallback_resolved (pick 5) taskFunc Component_callback
                    [caller; VInt 1; VStr "test"] pool;
  pool ← wait ret (sched 5) pool;
  '(ret, pool) ← dispatchCallback_resolved (pick 6) Component_taskFunc null_function
                    [caller; VInt 1; VStr "test"] pool;
  pool ← (if valid ret then wait ret (sched 6) pool else Some pool);
  pool ← stop fuel pool;
  pool ← destroy fuel pool;
  Some (DemoOutput a b (negb (valid ret)) pool).

(** What the demo leaves in the history. *)
Definition demo_history : list event :=
  [Enqueued 0; Dequeued 0; Invoked 0;
   Enqueued 1; Dequeued 1; Invoked 1;
   Enqueued 2; Dequeued 2; Invoked 2; CalledBack 2 (VInt 4);
   Enqueued 3; Dequeued 3; Invoked 3; CalledBack 3 (Result "result");
   Enqueued 4; Dequeued 4; Invoked 4; CalledBack 4 (Result "result");
   Enqueued 5; Dequeued 5; Invoked 5; CalledBack 5 (Result "result")].

(** [scenario_a] once its worker has popped the task. *)
Definition scenario_a_popped : TaskManager :=
  Pool true 1 []
       [default_thread;
        Thread true (Popped (Some (PackagedTask 0
                       (λ _, invoke (λ _, Returned (VInt 2)) [VInt 1]) None)))]
       false [Pending] [Enqueued 0; Dequeued 0].

(** * Properties *)

(** ** Transitions *)

Lemma worker_step_spec i s s' :
  worker_step i s = Some s' ↔ transition i s s'.
Proof.
  split.
  - unfold worker_step. destruct (workers s !! i) as [t|] eqn:Hi; [|done].
    destruct (at_ t) eqn:Hat; try done.
    + destruct (taskMutex s) eqn:Hm; [done|].
      destruct (isRunning s) eqn:Hr; simpl.
      * destruct (tasks s) as [|task rest] eqn:Hq; simpl.
        -- intros [= <-]. by eapply worker_waits.
        -- intros [= <-]. by eapply worker_pops.
      * intros [= <-]. by eapply worker_returns.
    + intros [= <-]. by eapply worker_calls.
  - unfold worker_step.
    destruct 1 as [t Hi Hat Hm Hr|t Hi Hat Hm Hr Hq|t task rest Hi Hat Hm Hr Hq|t task Hi Hat];
      rewrite Hi, Hat; try rewrite Hm, Hr; try rewrite Hq; done.
Qed.

(** The four paths of a transition, with the names used below. *)
Ltac transition_cases H :=
  destruct H as [t Hi Hat Hmx Hr|t Hi Hat Hmx Hr Hq|t task rest Hi Hat Hmx Hr Hq
                |t task Hi Hat].

(** Calling a unit touches the history and the shared states only. *)
Lemma call_unit_workers task s : workers (call_unit task s) = workers s.
Proof. by destruct task as [T|]; simpl; [destruct (run_packaged T)|]. Qed.

Lemma call_unit_tasks task s : tasks (call_unit task s) = tasks s.
Proof. by destruct task as [T|]; simpl; [destruct (run_packaged T)|]. Qed.

Lemma call_unit_isRunning task s : isRunning (call_unit task s) = isRunning s.
Proof. by destruct task as [T|]; simpl; [destruct (run_packaged T)|]. Qed.

Lemma call_unit_taskMutex task s : taskMutex (call_unit task s) = taskMutex s.
Proof. by destruct task as [T|]; simpl; [destruct (run_packaged T)|]. Qed.

Create Rewrite HintDb pool.
#[local] Hint Rewrite call_unit_workers call_unit_tasks call_unit_isRunning
  call_unit_taskMutex : pool.

Lemma set_worker_lookup i w s t :
  workers s !! i = Some t →
  workers (set_worker i w s) !! i = Some (Thread (joinable t) w).
Proof. intros H. simpl. by rewrite list_lookup_alter_eq, H. Qed.

Lemma run_app sched1 sched2 s :
  run (sched1 ++ sched2) s = s' ← run sched1 s; run sched2 s'.
Proof.
  revert s. induction sched1 as [|i sched1 IH]; intros s; simpl; [done|].
  destruct (worker_step i s); simpl; [apply IH | done].
Qed.

Lemma execute_work sched s : execute (Work <$> sched) s = run sched s.
Proof.
  revert s. induction sched as [|i sched IH]; intros s; simpl; [done|].
  destruct (worker_step i s); simpl; [apply IH | done].
Qed.

(** Updating one element of the vector of workers. *)
Lemma alter_middle {A} (f : A → A) (l : list A) i x :
  l !! i = Some x →
  ∃ pre post, l = pre ++ x :: post ∧ alter f i l = pre ++ f x :: post
              ∧ length pre = i.
Proof.
  revert i. induction l as [|y l IH]; intros [|i] H; simplify_eq/=.
  - by exists [], l.
  - destruct (IH _ H) as (pre & post & -> & -> & <-). by exists (y :: pre), post.
Qed.

(** ** Histories, handles and shared states *)

Lemma enqueued_app h h' : enqueued (h ++ h') = enqueued h ++ enqueued h'.
Proof. apply omap_app. Qed.
Lemma dequeued_app h h' : dequeued (h ++ h') = dequeued h ++ dequeued h'.
Proof. apply omap_app. Qed.
Lemma invoked_app h h' : invoked (h ++ h') = invoked h ++ invoked h'.
Proof. apply omap_app. Qed.
Lemma execution_of_app fid h h' :
  execution_of fid (h ++ h') = execution_of fid h ++ execution_of fid h'.
Proof. apply filter_app. Qed.

Lemma held_alter_same (f : thread → thread) i (ws : list thread) t :
  ws !! i = Some t → held (f t) = held t →
  omap held (alter f i ws) = omap held ws.
Proof.
  intros Hi Hf. destruct (alter_middle f ws i t Hi) as (pre & post & -> & -> & _).
  rewrite !omap_app. simpl. by rewrite Hf.
Qed.

Lemma held_alter_gain (f : thread → thread) i (ws : list thread) t T :
  ws !! i = Some t → held t = None → held (f t) = Some T →
  omap held (alter f i ws) ≡ₚ T :: omap held ws.
Proof.
  intros Hi Ht Hf. destruct (alter_middle f ws i t Hi) as (pre & post & -> & -> & _).
  rewrite !omap_app. simpl. rewrite Ht, Hf. by rewrite Permutation_middle.
Qed.

Lemma held_alter_lose (f : thread → thread) i (ws : list thread) t T :
  ws !! i = Some t → held t = Some T → held (f t) = None →
  omap held ws ≡ₚ T :: omap held (alter f i ws).
Proof.
  intros Hi Ht Hf. destruct (alter_middle f ws i t Hi) as (pre & post & -> & -> & _).
  rewrite !omap_app. simpl. rewrite Ht, Hf. by rewrite Permutation_middle.
Qed.

Lemma Exists_alter {A} (P : A → Prop) (f : A → A) i (l : list A) x :
  l !! i = Some x → P (f x) → Exists P (alter f i l).
Proof.
  intros Hi HP. destruct (alter_middle f l i x Hi) as (pre & post & -> & -> & _).
  apply Exists_app. right. by left.
Qed.

Lemma elem_of_alter {A} (f : A → A) i (l : list A) y :
  y ∈ alter f i l → y ∈ l ∨ ∃ x, l !! i = Some x ∧ y = f x.
Proof.
  intros [j Hj]%list_elem_of_lookup. destruct (decide (i = j)) as [->|Hne].
  - rewrite list_lookup_alter_eq in Hj. destruct (l !! j) as [x|] eqn:E; simplify_eq/=.
    right. by exists x.
  - rewrite list_lookup_alter_ne in Hj by done. left. apply list_elem_of_lookup. eauto.
Qed.

Lemma set_result_length fid o ps : length (set_result fid o ps) = length ps.
Proof.
  unfold set_result. destruct (ps !! fid) as [[]|]; [|done..]. apply length_insert.
Qed.

Lemma set_result_lookup_ne fid o ps j :
  fid ≠ j → set_result fid o ps !! j = ps !! j.
Proof.
  intros Hne. unfold set_result. destruct (ps !! fid) as [[]|]; [|done..].
  by apply list_lookup_insert_ne.
Qed.

Lemma set_result_lookup_pending fid o ps :
  ps !! fid = Some Pending → set_result fid o ps !! fid = Some (Ready o).
Proof.
  intros H. unfold set_result. rewrite H. apply list_lookup_insert_eq.
  by eapply lookup_lt_Some.
Qed.

Lemma run_packaged_invoked t : invoked (run_packaged t).1 = [promise t].
Proof.
  unfold run_packaged. destruct (call t ()); [|done].
  by destruct (then_callback t).
Qed.

Lemma run_packaged_enqueued t : enqueued (run_packaged t).1 = [].
Proof.
  unfold run_packaged. destruct (call t ()); [|done].
  by destruct (then_callback t).
Qed.

Lemma run_packaged_dequeued t : dequeued (run_packaged t).1 = [].
Proof.
  unfold run_packaged. destruct (call t ()); [|done].
  by destruct (then_callback t).
Qed.

Lemma run_packaged_execution_of fid t :
  execution_of fid (run_packaged t).1 =
  if decide (promise t = fid) then (run_packaged t).1 else [].
Proof.
  unfold run_packaged, execution_of.
  destruct (call t ()); [destruct (then_callback t)|]; simpl;
    rewrite ?filter_cons, ?filter_nil; simpl;
    destruct (decide (promise t = fid)) as [->|Hne];
    repeat case_decide; rewrite ?bool_decide_eq_true in *; done.
Qed.

(** ** The pool invariant *)

Lemma no_blocked_not_exists (ws : list thread) :
  Forall (λ w, is_blocked w = false) ws → ¬ Exists (λ w, is_blocked w = true) ws.
Proof.
  intros HF HE. apply Exists_exists in HE as (w & Hw & Hb).
  rewrite Forall_forall in HF. specialize (HF w Hw). congruence.
Qed.

Lemma NoDup_dequeued s :
  enqueued (history s) = dequeued (history s) ++ queued_ids s →
  NoDup (enqueued (history s)) → NoDup (dequeued (history s)).
Proof. intros -> H. by apply NoDup_app in H as [? _]. Qed.

Lemma elem_of_enqueued fid h : fid ∈ enqueued h ↔ Enqueued fid ∈ h.
Proof.
  unfold enqueued. rewrite list_elem_of_omap. split.
  - intros ([] & He & Hx); by simplify_eq.
  - intros He. by exists (Enqueued fid).
Qed.

Lemma elem_of_dequeued fid h : fid ∈ dequeued h ↔ Dequeued fid ∈ h.
Proof.
  unfold dequeued. rewrite list_elem_of_omap. split.
  - intros ([] & He & Hx); by simplify_eq.
  - intros He. by exists (Dequeued fid).
Qed.

Lemma elem_of_invoked fid h : fid ∈ invoked h ↔ Invoked fid ∈ h.
Proof.
  unfold invoked. rewrite list_elem_of_omap. split.
  - intros ([] & He & Hx); by simplify_eq.
  - intros He. by exists (Invoked fid).
Qed.

Lemma event_allocated s e :
  pool_inv s → e ∈ history s → event_id e < length (promises s).
Proof.
  intros Hinv He. pose proof (inv_alloc s Hinv) as H.
  rewrite Forall_forall in H. by apply H.
Qed.

Lemma dequeued_enqueued s fid :
  pool_inv s → fid ∈ dequeued (history s) → fid ∈ enqueued (history s).
Proof. intros Hinv H. rewrite (inv_fifo s Hinv). apply elem_of_app. by left. Qed.

Lemma invoked_dequeued s fid :
  pool_inv s → fid ∈ invoked (history s) → fid ∈ dequeued (history s).
Proof. intros Hinv H. rewrite (inv_held s Hinv). apply elem_of_app. by left. Qed.

Lemma queued_enqueued s t :
  pool_inv s → Some t ∈ tasks s → promise t ∈ enqueued (history s).
Proof.
  intros Hinv H. rewrite (inv_fifo s Hinv). apply elem_of_app. right.
  unfold queued_ids. apply list_elem_of_fmap_2, list_elem_of_omap. by exists (Some t).
Qed.

Lemma held_dequeued s w t :
  pool_inv s → w ∈ workers s → held w = Some t →
  promise t ∈ dequeued (history s) ∧ promise t ∉ invoked (history s).
Proof.
  intros Hinv Hw Ht.
  assert (Hin : promise t ∈ held_ids s).
  { unfold held_ids. apply list_elem_of_fmap_2, list_elem_of_omap. by exists w. }
  assert (Hnd : NoDup (invoked (history s) ++ held_ids s)).
  { rewrite <- (inv_held s Hinv). eapply NoDup_dequeued; by destruct Hinv. }
  split.
  - rewrite (inv_held s Hinv). apply elem_of_app. by right.
  - apply NoDup_app in Hnd as (_ & Hdisj & _). intros Hi. by apply (Hdisj _ Hi).
Qed.

Lemma allocated s fid :
  pool_inv s → fid ∈ enqueued (history s) → fid < length (promises s).
Proof.
  intros Hinv H%elem_of_enqueued. by apply (event_allocated s _ Hinv) in H.
Qed.

Lemma run_packaged_ids t : Forall (λ e, event_id e = promise t) (run_packaged t).1.
Proof.
  unfold run_packaged. destruct (call t ()); [destruct (then_callback t)|];
    simpl; repeat constructor.
Qed.

Lemma transition_pool_inv i s s' : pool_inv s → transition i s s' → pool_inv s'.
Proof.
  intros Hinv Hstep.
  pose proof Hinv as [Hm Hh Haw Hwk Hfifo Hheld Honce Halloc Hpend].
  transition_cases Hstep.
  - (* the worker returns *)
    constructor; simpl; try done.
    + apply Forall_alter; [done|]. by intros x _ _ _.
    + intros _. apply Forall_alter; [by apply Haw|]. by intros x _ _.
    + intros _ HE. exfalso. revert HE. apply no_blocked_not_exists.
      apply Forall_alter; [by apply Haw|]. by intros x _ _.
    + unfold held_ids in *; simpl. erewrite held_alter_same; [done..|].
      unfold held. by rewrite Hat.
  - (* the worker goes to sleep *)
    constructor; simpl; try done.
    + apply Forall_alter; [done|]. by intros x _ _ _.
    + congruence.
    + unfold held_ids in *; simpl. erewrite held_alter_same; [done..|].
      unfold held. by rewrite Hat.
  - (* the worker pops a unit *)
    constructor; simpl.
    + done.
    + apply Forall_alter; [done|]. by intros x _ _ _.
    + congruence.
    + intros _ _. by eapply Exists_alter.
    + rewrite enqueued_app, dequeued_app.
      unfold queued_ids in *; simpl. rewrite Hfifo, Hq.
      destruct task as [T|]; simpl; rewrite !app_nil_r; [|done].
      by rewrite <- app_assoc.
    + rewrite dequeued_app, invoked_app. unfold held_ids in *; simpl.
      destruct task as [T|]; simpl.
      * rewrite app_nil_r.
        rewrite (held_alter_gain _ i (workers s) t T Hi)
          by (done || (unfold held; by rewrite Hat)).
        rewrite Hheld, fmap_cons. solve_Permutation.
      * rewrite !app_nil_r. erewrite held_alter_same; [done..|].
        unfold held. by rewrite Hat.
    + rewrite enqueued_app. by destruct task; simpl; rewrite app_nil_r.
    + apply Forall_app. split; [done|].
      destruct task as [T|]; simpl; [|done]. constructor; [|done]. simpl.
      apply (allocated s), (queued_enqueued s); [done..|]. rewrite Hq. by left.
    + intros fid Hlt Hni. apply Hpend; [done|].
      rewrite invoked_app in Hni. by destruct task; simpl in Hni; rewrite app_nil_r in Hni.
  - (* the worker calls the unit *)
    destruct task as [T|]; simpl.
    + pose proof (run_packaged_ids T) as Hids.
      destruct (run_packaged T) as [evs o] eqn:Hrun.
      assert (Hinvk : invoked evs = [promise T])
        by (by rewrite <- (run_packaged_invoked T), Hrun).
      assert (Henq : enqueued evs = [])
        by (by rewrite <- (run_packaged_enqueued T), Hrun).
      assert (Hdeq : dequeued evs = [])
        by (by rewrite <- (run_packaged_dequeued T), Hrun).
      assert (HT : promise T < length (promises s)).
      { apply (allocated s), (dequeued_enqueued s); [done..|].
        eapply (held_dequeued s t); [done| |by unfold held; rewrite Hat].
        by eapply list_elem_of_lookup_2. }
      constructor; simpl.
      * done.
      * apply Forall_alter; [done|]. by intros x _ _ _.
      * intros Hr. apply Forall_alter; [by apply Haw|]. by intros x _ _.
      * intros _ _. by eapply Exists_alter.
      * by rewrite enqueued_app, dequeued_app, Henq, Hdeq, !app_nil_r.
      * rewrite dequeued_app, invoked_app, Hdeq, Hinvk, app_nil_r.
        rewrite Hheld. unfold held_ids; simpl.
        rewrite (held_alter_lose (λ t, Thread (joinable t) AtLock) i (workers s) t T Hi)
          by (done || (unfold held; by rewrite Hat)).
        rewrite fmap_cons. solve_Permutation.
      * by rewrite enqueued_app, Henq, app_nil_r.
      * rewrite set_result_length. apply Forall_app. split; [done|].
        simpl in Hids. eapply Forall_impl; [exact Hids|]. simpl. intros e ->. done.
      * intros fid. rewrite set_result_length, invoked_app, Hinvk.
        intros Hlt Hni. rewrite set_result_lookup_ne.
        -- apply Hpend; [done|]. intros ?. apply Hni, elem_of_app. by left.
        -- intros <-. apply Hni, elem_of_app. right. by apply list_elem_of_singleton.
    + constructor; simpl; try done.
      * apply Forall_alter; [done|]. by intros x _ _ _.
      * intros Hr. apply Forall_alter; [by apply Haw|]. by intros x _ _.
      * intros _ _. by eapply Exists_alter.
      * unfold held_ids in *; simpl. erewrite held_alter_same; [done..|].
        unfold held. by rewrite Hat.
Qed.

(** ** Pushing a task *)

Lemma notify_one_cases pick (ws : list thread) :
  (Forall (λ w, is_blocked w = false) ws ∧ notify_one pick ws = ws)
  ∨ (∃ j t, ws !! j = Some t ∧ is_blocked t = true
            ∧ notify_one pick ws = alter wake j ws).
Proof.
  assert (Hfind :
    match list_find (λ t, is_blocked t = true) ws with
    | Some (j, _) => alter wake j ws
    | None => ws
    end = notify_one pick ws
    ∨ ∃ t, ws !! pick = Some t ∧ is_blocked t = true
            ∧ notify_one pick ws = alter wake pick ws).
  { unfold notify_one. destruct (ws !! pick) as [[jn []]|] eqn:Hp; auto.
    right. by eexists. }
  destruct Hfind as [<-|(t & ? & ? & ?)]; [|right; eauto].
  destruct (list_find _ ws) as [[j t]|] eqn:Hf.
  - apply list_find_Some in Hf as (? & ? & _). right. eauto.
  - left. split; [|done]. apply list_find_None in Hf.
    eapply Forall_impl; [exact Hf|]. simpl. intros w Hw. destruct (is_blocked w); [by destruct Hw|done].
Qed.

Lemma wake_joinable t : joinable (wake t) = joinable t.
Proof. by destruct t as [j []]. Qed.

Lemma wake_held t : held (wake t) = held t.
Proof. by destruct t as [j []]. Qed.

Lemma wake_not_blocked t : is_blocked (wake t) = false.
Proof. by destruct t as [j []]. Qed.

Lemma wake_blocked t : is_blocked t = true → is_active (wake t) = true.
Proof. unfold wake. by intros ->. Qed.

Lemma wake_at t : at_ t ≠ NoThread → at_ (wake t) ≠ NoThread.
Proof. by destruct t as [j []]. Qed.

Lemma notify_one_held pick (ws : list thread) :
  omap held (notify_one pick ws) = omap held ws.
Proof.
  destruct (notify_one_cases pick ws) as [[_ ->]|(j & t & Hj & _ & ->)]; [done|].
  eapply held_alter_same; [done|]. apply wake_held.
Qed.

Lemma notify_one_Forall (P : thread → Prop) pick (ws : list thread) :
  (∀ t, P t → P (wake t)) → Forall P ws → Forall P (notify_one pick ws).
Proof.
  intros HP HF.
  destruct (notify_one_cases pick ws) as [[_ ->]|(j & t & Hj & _ & ->)]; [done|].
  apply Forall_alter; [done|]. intros x _. apply HP.
Qed.

Lemma notify_one_elem_of pick (ws : list thread) w :
  w ∈ notify_one pick ws → ∃ w', w' ∈ ws ∧ held w = held w'.
Proof.
  destruct (notify_one_cases pick ws) as [[_ ->]|(j & t & Hj & _ & ->)]; [eauto|].
  intros [?|(x & Hx & ->)]%elem_of_alter; [eauto|].
  exists x. split; [by eapply list_elem_of_lookup_2|]. apply wake_held.
Qed.

Lemma execution_of_fresh fid h :
  Forall (λ e, event_id e < fid) h → execution_of fid h = [].
Proof.
  unfold execution_of. induction 1 as [|e h He _ IH]; [done|].
  rewrite filter_cons, IH. case_decide as Hab; [|done].
  destruct e; simpl in *; try done; apply bool_decide_eq_true in Hab; lia.
Qed.

(** Pushing a freshly packaged task. *)
Lemma push_fresh pick body cb s T s0 s1 :
  pool_inv s →
  make_packaged_task body cb s = (T, s0) →
  pushTask pick T s0 = Some s1 →
  pool_inv s1 ∧ task_inv T s1
  ∧ promise T = length (promises s)
  ∧ (promise T ∉ invoked (history s1))
  ∧ isRunning s1 = isRunning s
  ∧ tasks s1 = tasks s ++ [Some T]
  ∧ history s1 = history s ++ [Enqueued (promise T)].
Proof.
  intros Hinv [= <- <-].
  pose proof Hinv as [Hm Hh Haw Hwk Hfifo Hheld Honce Halloc Hpend].
  unfold pushTask, with_lock; simpl. rewrite Hm. intros [= <-]; simpl.
  assert (Hfresh : ∀ fid, fid ∈ enqueued (history s) → fid ≠ length (promises s)).
  { intros fid Hf. apply (allocated s) in Hf; [lia|done]. }
  assert (Hni : length (promises s) ∉ invoked (history s ++ [Enqueued (length (promises s))])).
  { rewrite invoked_app; simpl. rewrite app_nil_r.
    intros H. apply (invoked_dequeued s), (dequeued_enqueued s) in H; [|done..].
    by eapply Hfresh. }
  split; [|split; [|done]].
  - constructor; simpl.
    + done.
    + apply notify_one_Forall; [|done]. intros t Ht. rewrite wake_joinable.
      intros Hj. by apply wake_at, Ht.
    + intros Hr. apply notify_one_Forall; [|by apply Haw]. intros t _. apply wake_not_blocked.
    + intros _ HE.
      destruct (notify_one_cases pick (workers s)) as [[Hnb Heq]|(j & t & Hj & Hb & Heq)];
        rewrite Heq in *.
      * by apply no_blocked_not_exists in Hnb.
      * eapply Exists_alter; [done|]. by apply wake_blocked.
    + rewrite enqueued_app, dequeued_app. simpl. unfold queued_ids in *; simpl.
      rewrite omap_app, fmap_app, app_nil_r, Hfifo. simpl. by rewrite app_assoc.
    + rewrite dequeued_app, invoked_app. simpl. rewrite !app_nil_r.
      unfold held_ids in *; simpl. by rewrite notify_one_held.
    + rewrite enqueued_app. simpl. apply NoDup_app. split; [done|]. split.
      * intros fid Hf ->%list_elem_of_singleton. by eapply Hfresh.
      * apply NoDup_singleton.
    + rewrite length_app. simpl. apply Forall_app. split.
      * eapply Forall_impl; [exact Halloc|]. simpl. lia.
      * constructor; [simpl; lia|done].
    + intros fid. rewrite length_app, invoked_app. simpl. rewrite app_nil_r.
      intros Hlt Hnf. destruct (decide (fid < length (promises s))) as [Hl|Hl].
      * rewrite lookup_app_l by done. by apply Hpend.
      * rewrite lookup_app_r by lia. by replace (fid - length (promises s)) with 0 by lia.
  - constructor; simpl.
    + rewrite enqueued_app. apply elem_of_app. right. by left.
    + intros t [Ht|Ht%list_elem_of_singleton]%elem_of_app Hp; [|by simplify_eq].
      apply (queued_enqueued s) in Ht; [|done]. by apply Hfresh in Ht.
    + intros w t (w' & Hw' & Hheq)%notify_one_elem_of Hw Hp.
      rewrite Hheq in Hw. apply (held_dequeued s) in Hw as [Hw _]; [|done..].
      apply (dequeued_enqueued s) in Hw; [|done]. by apply Hfresh in Hw.
    + done.
    + rewrite decide_False by done.
      rewrite execution_of_app. simpl. rewrite execution_of_fresh; [done|].
      eapply Forall_impl; [exact Halloc|]. done.
Qed.

(** ** The invariant of one task *)

Lemma transition_task_inv i s s' T :
  pool_inv s → task_inv T s → transition i s s' → task_inv T s'.
Proof.
  intros Hinv [Henq Hqueue Hh Hres Hev] Hstep.
  transition_cases Hstep.
  - constructor; simpl; try done.
    intros w t' [?|(x & _ & ->)]%elem_of_alter; [by eauto|done].
  - constructor; simpl; try done.
    intros w t' [?|(x & _ & ->)]%elem_of_alter; [by eauto|done].
  - assert (Hinvk : invoked (history s ++ dequeue_events task) = invoked (history s)).
    { rewrite invoked_app. destruct task; simpl; by rewrite app_nil_r. }
    constructor; simpl.
    + rewrite enqueued_app. apply elem_of_app. by left.
    + intros t' Ht'. apply Hqueue. rewrite Hq. by right.
    + intros w t' [?|(x & _ & ->)]%elem_of_alter; [by eauto|].
      unfold held; simpl. intros ->. apply Hqueue. rewrite Hq. by left.
    + by rewrite Hinvk.
    + rewrite Hinvk, execution_of_app, Hev.
      destruct task; simpl; by rewrite app_nil_r.
  - destruct task as [T'|]; simpl.
    + assert (Hw : t ∈ workers s) by (by eapply list_elem_of_lookup_2).
      assert (Hheld : held t = Some T') by (by unfold held; rewrite Hat).
      destruct (held_dequeued s t T' Hinv Hw Hheld) as [Hdq Hni].
      pose proof (run_packaged_execution_of (promise T) T') as Hex.
      pose proof (run_packaged_invoked T') as Hinvk.
      destruct (run_packaged T') as [evs o] eqn:Hrun. simpl in *.
      constructor; simpl.
      * rewrite enqueued_app. apply elem_of_app. by left.
      * done.
      * intros w t' [?|(x & _ & ->)]%elem_of_alter; [by eauto|done].
      * rewrite invoked_app, Hinvk.
        destruct (decide (promise T' = promise T)) as [Heq|Hne].
        -- intros _. assert (T' = T) as -> by eauto.
           rewrite Hrun. simpl. apply set_result_lookup_pending.
           apply (inv_pending s Hinv); [|done].
           by apply (allocated s), (dequeued_enqueued s).
        -- intros [?|?%list_elem_of_singleton]%elem_of_app; [|congruence].
           rewrite set_result_lookup_ne by done. by apply Hres.
      * rewrite invoked_app, Hinvk, execution_of_app, Hex, Hev.
        destruct (decide (promise T' = promise T)) as [Heq|Hne].
        -- assert (T' = T) as -> by eauto.
           rewrite decide_False by done. rewrite decide_True.
           ++ by rewrite Hrun.
           ++ apply elem_of_app. right. by left.
        -- rewrite app_nil_r. repeat case_decide; try done.
           ++ exfalso. apply H0, elem_of_app. by left.
           ++ apply elem_of_app in H0 as [?|?%list_elem_of_singleton]; congruence.
    + constructor; simpl; try done.
      intros w t' [?|(x & _ & ->)]%elem_of_alter; [by eauto|done].
Qed.

Lemma push_task_inv pick body cb s T' s0 s1 T :
  pool_inv s → task_inv T s →
  make_packaged_task body cb s = (T', s0) →
  pushTask pick T' s0 = Some s1 →
  task_inv T s1.
Proof.
  intros Hinv [Henq Hq Hh Hres Hev] [= <- <-].
  unfold pushTask, with_lock; simpl. rewrite (inv_mutex s Hinv). intros [= <-].
  assert (Hlt : promise T < length (promises s)) by (by apply allocated).
  assert (Hinvk : invoked (history s ++ [Enqueued (length (promises s))]) = invoked (history s)).
  { rewrite invoked_app. simpl. by rewrite app_nil_r. }
  constructor; simpl.
  - rewrite enqueued_app. apply elem_of_app. by left.
  - intros t [Ht|Ht%list_elem_of_singleton]%elem_of_app Hp; [by eauto|].
    simplify_eq/=. lia.
  - intros w t (w' & Hw' & Hheq)%notify_one_elem_of Hw Hp. rewrite Hheq in Hw. eauto.
  - rewrite Hinvk. intros Hin. rewrite lookup_app_l by done. by apply Hres.
  - rewrite Hinvk, execution_of_app, Hev. simpl. by rewrite app_nil_r.
Qed.

(** *** What the dispatchers do *)

Lemma dispatch_cases pick function args s fut s1 :
  dispatch pick function args s = Some (fut, s1) →
  (target function = None ∧ fut = InvalidFuture ∧ s1 = s)
  ∨ ∃ f T s0,
      target function = Some f
      ∧ make_packaged_task (λ _, invoke f args) None s = (T, s0)
      ∧ pushTask pick T s0 = Some s1 ∧ fut = Future (promise T).
Proof.
  unfold dispatch. destruct (target function) as [f|]; [|intros [= <- <-]; by left].
  simpl. destruct (pushTask _ _ _) as [s2|] eqn:Hp; simpl; [|done].
  intros [= <- <-]. right. by eexists _, _, _.
Qed.

Lemma dispatchCallback_cases pick c s fut s1 :
  dispatchCallback_call pick c s = Some (fut, s1) →
  ((target (task_of c) = None ∨ target (callback_of c) = None)
   ∧ fut = InvalidFuture ∧ s1 = s)
  ∨ ∃ f cb T s0,
      target (task_of c) = Some f ∧ target (callback_of c) = Some cb
      ∧ make_packaged_task (λ _, invoke f (task_args c))
          (Some (λ result, invoke cb (callback_args c result))) s = (T, s0)
      ∧ pushTask pick T s0 = Some s1 ∧ fut = Future (promise T).
Proof.
  destruct c as [function callback args|function callback instance args
                |function callback instance args]; simpl;
    unfold dispatchCallback, dispatchCallback_member, dispatchCallback_members;
    (destruct (target function) as [f|]; [|intros [= <- <-]; left; by auto]);
    (destruct (target callback) as [cb|]; [|intros [= <- <-]; left; by auto]);
    simpl; (destruct (pushTask _ _ _) as [s2|] eqn:Hp; simpl; [|done]);
    intros [= <- <-]; right; by eexists _, _, _, _.
Qed.

Lemma perform_pool_inv a s s' : pool_inv s → perform a s = Some s' → pool_inv s'.
Proof.
  intros Hinv. destruct a as [i|pick function args|pick c]; simpl.
  - intros ?%worker_step_spec. by eapply transition_pool_inv.
  - destruct (dispatch _ _ _ _) as [[fut s1]|] eqn:Hd; simpl; [|done]. intros [= <-].
    apply dispatch_cases in Hd as [(_ & _ & ->)|(f & T & s0 & _ & Hmk & Hp & _)]; [done|].
    by eapply push_fresh.
  - destruct (dispatchCallback_call _ _ _) as [[fut s1]|] eqn:Hd; simpl; [|done].
    intros [= <-].
    apply dispatchCallback_cases in Hd as [(_ & _ & ->)|(f & cb & T & s0 & _ & _ & Hmk & Hp & _)];
      [done|].
    by eapply push_fresh.
Qed.

Lemma perform_task_inv a s s' T :
  pool_inv s → task_inv T s → perform a s = Some s' → task_inv T s'.
Proof.
  intros Hinv HT. destruct a as [i|pick function args|pick c]; simpl.
  - intros ?%worker_step_spec. by eapply transition_task_inv.
  - destruct (dispatch _ _ _ _) as [[fut s1]|] eqn:Hd; simpl; [|done]. intros [= <-].
    apply dispatch_cases in Hd as [(_ & _ & ->)|(f & T' & s0 & _ & Hmk & Hp & _)]; [done|].
    by eapply push_task_inv.
  - destruct (dispatchCallback_call _ _ _) as [[fut s1]|] eqn:Hd; simpl; [|done].
    intros [= <-].
    apply dispatchCallback_cases in Hd as [(_ & _ & ->)|(f & cb & T' & s0 & _ & _ & Hmk & Hp & _)];
      [done|].
    by eapply push_task_inv.
Qed.

(** *** Serving pools stay serving *)

Lemma Exists_alter_keep {A} (P : A → Prop) (f : A → A) i (l : list A) :
  (∀ x, P x → P (f x)) → Exists P l → Exists P (alter f i l).
Proof.
  intros Hf. rewrite !Exists_exists. intros (x & [j Hj]%list_elem_of_lookup & Hx).
  destruct (decide (i = j)) as [->|Hne].
  - exists (f x). split; [|by apply Hf].
    apply list_elem_of_lookup. exists j. by rewrite list_lookup_alter_eq, Hj.
  - exists x. split; [|done].
    apply list_elem_of_lookup. exists j. by rewrite list_lookup_alter_ne.
Qed.

Lemma transition_isRunning i s s' : transition i s s' → isRunning s' = isRunning s.
Proof. destruct 1; simpl; by autorewrite with pool. Qed.

Lemma transition_serving i s s' : serving s → transition i s s' → serving s'.
Proof.
  intros [Hr Hl] Hstep. split; [by rewrite (transition_isRunning i s s')|].
  destruct Hstep as [t Hi Hat Hmx Hr'|t Hi Hat Hmx Hr' Hq|t task rest Hi Hat Hmx Hr' Hq
                    |t task Hi Hat]; simpl.
  - congruence.
  - by eapply Exists_alter.
  - by eapply Exists_alter.
  - autorewrite with pool. by eapply Exists_alter.
Qed.

Lemma wake_live t : is_live t = true → is_live (wake t) = true.
Proof. by destruct t as [j []]. Qed.

Lemma push_serving pick T s0 s1 :
  serving s0 → pushTask pick T s0 = Some s1 → serving s1.
Proof.
  intros [Hr Hl]. unfold pushTask, with_lock. destruct (taskMutex s0); [done|].
  intros [= <-]. split; [done|]. simpl.
  destruct (notify_one_cases pick (workers s0)) as [[_ ->]|(j & t & Hj & _ & ->)]; [done|].
  apply Exists_alter_keep; [|done]. apply wake_live.
Qed.

Lemma perform_serving a s s' : serving s → perform a s = Some s' → serving s'.
Proof.
  intros Hs. destruct a as [i|pick function args|pick c]; simpl.
  - intros ?%worker_step_spec. by eapply transition_serving.
  - destruct (dispatch _ _ _ _) as [[fut s1]|] eqn:Hd; simpl; [|done]. intros [= <-].
    apply dispatch_cases in Hd as [(_ & _ & ->)|(f & T & s0 & _ & [= <- <-] & Hp & _)]; [done|].
    eapply push_serving; [|done]. exact Hs.
  - destruct (dispatchCallback_call _ _ _) as [[fut s1]|] eqn:Hd; simpl; [|done].
    intros [= <-].
    apply dispatchCallback_cases in Hd
      as [(_ & _ & ->)|(f & cb & T & s0 & _ & _ & [= <- <-] & Hp & _)]; [done|].
    eapply push_serving; [|done]. exact Hs.
Qed.

Lemma execute_inv acts s s' T :
  pool_inv s → task_inv T s → serving s → execute acts s = Some s' →
  pool_inv s' ∧ task_inv T s' ∧ serving s'.
Proof.
  revert s. induction acts as [|a acts IH]; intros s Hinv HT Hs; simpl.
  - by intros [= <-].
  - destruct (perform a s) as [s1|] eqn:Ha; simpl; [|done].
    apply IH; [by eapply perform_pool_inv|by eapply perform_task_inv
              |by eapply perform_serving].
Qed.

(** *** Quiescence *)

Lemma quiescent_idle s :
  taskMutex s = false → quiescent s →
  Forall (λ w, is_active w = false) (workers s).
Proof.
  intros Hm Hq. apply Forall_lookup. intros i w Hi.
  specialize (Hq i). unfold worker_step in Hq. rewrite Hi, Hm in Hq.
  destruct w as [j []]; simpl in *; try done.
  destruct (isRunning s); simpl in *; [|done]. by destruct (tasks s).
Qed.

Lemma idle_no_held (ws : list thread) :
  Forall (λ w, is_active w = false) ws → omap held ws = [].
Proof.
  induction 1 as [|w ws Hw _ IH]; [done|].
  destruct w as [j []]; simpl in *; done.
Qed.

Lemma quiescent_drained s :
  pool_inv s → serving s → quiescent s → tasks s = [] ∧ held_ids s = [].
Proof.
  intros Hinv [Hr Hl] Hq.
  pose proof (quiescent_idle s (inv_mutex s Hinv) Hq) as Hidle.
  split; [|by unfold held_ids; rewrite idle_no_held].
  destruct (tasks s) as [|u q] eqn:Htasks; [done|]. exfalso.
  assert (HE : Exists (λ w, is_active w = true) (workers s)).
  { apply (inv_wakeup s Hinv); [by rewrite Htasks|].
    apply Exists_exists in Hl as (w & Hw & Hlive). apply Exists_exists. exists w.
    split; [done|]. rewrite Forall_forall in Hidle. specialize (Hidle w Hw).
    by destruct w as [j []]. }
  apply Exists_exists in HE as (w & Hw & Hact).
  rewrite Forall_forall in Hidle. specialize (Hidle w Hw). congruence.
Qed.

(** Once the workers have come to rest, a pushed task has been run. *)
Lemma quiescent_settled s T :
  pool_inv s → task_inv T s → serving s → quiescent s →
  promises s !! promise T = Some (Ready (run_packaged T).2)
  ∧ execution_of (promise T) (history s) = (run_packaged T).1.
Proof.
  intros Hinv HT Hs Hq. destruct (quiescent_drained s Hinv Hs Hq) as [Hts Hheld].
  assert (Hin : promise T ∈ invoked (history s)).
  { pose proof (ti_enqueued T s HT) as Hen.
    pose proof (inv_fifo s Hinv) as Hfifo. pose proof (inv_held s Hinv) as Hh.
    unfold queued_ids in Hfifo. rewrite Hts in Hfifo. simpl in Hfifo.
    rewrite Hheld in Hh. rewrite !app_nil_r in *. by rewrite Hfifo, Hh in Hen. }
  split; [by apply (ti_result T s HT)|].
  rewrite (ti_events T s HT). by rewrite decide_True.
Qed.

(** Before that, its shared state is pending and nothing of it ran. *)
Lemma task_progress s T :
  pool_inv s → task_inv T s →
  (promises s !! promise T = Some Pending ∧ execution_of (promise T) (history s) = [])
  ∨ (promises s !! promise T = Some (Ready (run_packaged T).2)
     ∧ execution_of (promise T) (history s) = (run_packaged T).1).
Proof.
  intros Hinv HT. rewrite (ti_events T s HT).
  destruct (decide (promise T ∈ invoked (history s))) as [Hin|Hni].
  - right. split; [by apply (ti_result T s HT)|done].
  - left. split; [|done]. apply (inv_pending s Hinv); [|done].
    apply allocated; [done|]. apply (ti_enqueued T s HT).
Qed.

(** *** The workers come to rest *)

Lemma weight_alter (f : thread → thread) i (ws : list thread) t :
  ws !! i = Some t →
  sum_list_with weight (alter f i ws) + weight t
  = sum_list_with weight ws + weight (f t).
Proof.
  intros Hi. destruct (alter_middle f ws i t Hi) as (pre & post & -> & -> & _).
  rewrite !sum_list_with_app. simpl. lia.
Qed.

Lemma transition_measure i s s' : transition i s s' → measure s' < measure s.
Proof.
  intros Hstep. transition_cases Hstep; unfold measure; simpl.
  - pose proof (weight_alter (λ t, Thread (joinable t) Exited) i _ t Hi) as H.
    unfold weight at 2 4 in H. rewrite Hat in H. simpl in H. lia.
  - pose proof (weight_alter (λ t, Thread (joinable t) Blocked) i _ t Hi) as H.
    unfold weight at 2 4 in H. rewrite Hat in H. simpl in H. lia.
  - pose proof (weight_alter (λ t, Thread (joinable t) (Popped task)) i _ t Hi) as H.
    unfold weight at 2 4 in H. rewrite Hat in H. simpl in H. rewrite Hq. simpl. lia.
  - pose proof (weight_alter (λ t, Thread (joinable t) AtLock) i _ t Hi) as H.
    unfold weight at 2 4 in H. rewrite Hat in H. simpl in H.
    autorewrite with pool. lia.
Qed.


Lemma drain_quiesces fuel s :
  measure s ≤ fuel → ∃ s', run (drain fuel s) s = Some s' ∧ quiescent s'.
Proof.
  revert s. induction fuel as [|fuel IH]; intros s Hm; simpl.
  - exists s. split; [done|]. intros i.
    destruct (worker_step i s) as [s1|] eqn:Hstep; [|done].
    apply worker_step_spec, transition_measure in Hstep. lia.
  - destruct (list_find _ _) as [[j i]|] eqn:Hfind.
    + apply list_find_Some in Hfind as (_ & [s1 Hstep] & _). rewrite Hstep. simpl.
      rewrite Hstep. simpl. apply IH.
      apply worker_step_spec, transition_measure in Hstep. lia.
    + exists s. split; [done|]. intros i.
      destruct (worker_step i s) as [s1|] eqn:Hstep; [|done].
      apply list_find_None in Hfind. rewrite Forall_forall in Hfind.
      exfalso. apply (Hfind i); [|by rewrite Hstep].
      apply elem_of_seq. split; [lia|]. simpl.
      unfold worker_step in Hstep. destruct (workers s !! i) eqn:Hi; [|done].
      by eapply lookup_lt_Some.
Qed.

(** *** Stopping *)

Lemma transition_stopping i s s' : stopping s → transition i s s' → stopping s'.
Proof.
  intros [Hm Hr Haw Hh] Hstep. pose proof (transition_isRunning i s s' Hstep) as Hr'.
  destruct Hstep as [t Hi Hat Hmx _|t Hi Hat Hmx ? Hq|t task rest Hi Hat Hmx ? Hq
                    |t task Hi Hat]; try congruence.
  - constructor; simpl; try done; apply Forall_alter; try done; by intros x _ _.
  - constructor; simpl; autorewrite with pool; try done;
      (apply Forall_alter; [done|by intros x _ _]).
Qed.

Lemma transition_workers i s s' t :
  transition i s s' → workers s !! i = Some t →
  ∃ w, workers s' = alter (λ t, Thread (joinable t) w) i (workers s)
       ∧ workers s' !! i = Some (Thread (joinable t) w).
Proof.
  intros Hstep Hi.
  assert (∃ w, workers s' = alter (λ t, Thread (joinable t) w) i (workers s)) as [w Hw].
  { destruct Hstep; simpl; autorewrite with pool; eauto. }
  exists w. split; [done|]. by rewrite Hw, list_lookup_alter_eq, Hi.
Qed.

Lemma transition_tasks_stopped i s s' :
  isRunning s = false → transition i s s' → tasks s' = tasks s.
Proof.
  intros Hr. destruct 1; simpl; autorewrite with pool; congruence.
Qed.

Lemma finish_exited fuel i s t :
  workers s !! i = Some t → at_ t = Exited → finish fuel i s = Some s.
Proof. intros Hi Hat. destruct fuel; simpl; by rewrite Hi; simpl; rewrite Hat. Qed.

Lemma finish_step fuel i s s1 t :
  workers s !! i = Some t → at_ t ≠ Exited → worker_step i s = Some s1 →
  finish (S fuel) i s = finish fuel i s1.
Proof.
  intros Hi Hat Hstep. simpl. rewrite Hi, Hstep. simpl. by destruct (at_ t).
Qed.

(** The loop of [stop], given fuel for two transitions per thread. *)
Section joining.

Context (fuel : nat) (Hfuel : 2 ≤ fuel).

(** A thread that is asked to stop returns within two transitions. *)
Lemma finish_stopping i s t :
  stopping s → workers s !! i = Some t → at_ t ≠ NoThread →
  ∃ s', finish fuel i s = Some s' ∧ stopping s'
        ∧ workers s' = alter (λ t, Thread (joinable t) Exited) i (workers s)
        ∧ tasks s' = tasks s.
Proof.
  intros Hst Hi Hat.
  assert (∃ n, fuel = S (S n)) as [n ->] by (exists (fuel - 2); lia).
  pose proof Hst as [Hm Hr Haw Hh].
  assert (Hnb : is_blocked t = false).
  { rewrite Forall_forall in Haw. apply Haw. by eapply list_elem_of_lookup_2. }
  unfold is_blocked in Hnb. destruct (at_ t) as [| | |task|] eqn:Hw; try done.
  - (* at the lock: one transition *)
    assert (Hstep : transition i s (set_worker i Exited s)) by (by eapply worker_returns).
    erewrite (finish_step _ i s _ t Hi); [|by rewrite Hw|by apply worker_step_spec].
    erewrite finish_exited; [|by apply set_worker_lookup|done].
    eexists. split; [done|]. split; [by eapply transition_stopping|done].
  - (* holding a unit: call it, then return *)
    assert (Hstep1 : transition i s (set_worker i AtLock (call_unit task s)))
      by (by eapply worker_calls).
    pose proof (transition_stopping _ _ _ Hst Hstep1) as Hst1.
    pose proof (transition_tasks_stopped _ _ _ Hr Hstep1) as Ht1.
    destruct (transition_workers _ _ _ _ Hstep1 Hi) as (w & Hws & Hwi).
    set (s1 := set_worker i AtLock (call_unit task s)) in *.
    assert (Hi1 : workers s1 !! i = Some (Thread (joinable t) AtLock)).
    { subst s1. simpl. by rewrite call_unit_workers, list_lookup_alter_eq, Hi. }
    assert (Hstep2 : transition i s1 (set_worker i Exited s1)).
    { eapply worker_returns; [done..|apply Hst1|apply Hst1]. }
    erewrite (finish_step _ i s _ t Hi); [|by rewrite Hw|by apply worker_step_spec].
    erewrite (finish_step _ i s1 _ _ Hi1); [|done|by apply worker_step_spec].
    erewrite finish_exited; [|by apply set_worker_lookup|done].
    eexists. split; [done|]. split; [by eapply transition_stopping|]. split; [|done].
    simpl. rewrite call_unit_workers, list_alter_alter_eq. by apply list_alter_ext.
  - (* already returned *)
    erewrite finish_exited; [|done..].
    exists s. split; [done|]. split; [done|]. split; [|done].
    symmetry. apply list_eq. intros k. rewrite list_lookup_alter.
    case_decide; [|done]. subst. rewrite Hi. simpl. destruct t; simpl in *. by subst.
Qed.

Lemma join_if_joinable_stopping i s :
  stopping s →
  ∃ s', join_if_joinable fuel (Some s) i = Some s' ∧ stopping s'
        ∧ workers s' = alter joined i (workers s) ∧ tasks s' = tasks s.
Proof.
  intros Hst. unfold join_if_joinable. simpl.
  destruct (workers s !! i) as [t|] eqn:Hi.
  - destruct (joinable t) eqn:Hj.
    + assert (Hat : at_ t ≠ NoThread).
      { pose proof (st_handles s Hst) as Hh. rewrite Forall_forall in Hh.
        apply Hh; [by eapply list_elem_of_lookup_2|done]. }
      destruct (finish_stopping i s t Hst Hi Hat) as (s1 & Hfin & Hst1 & Hw & Ht).
      unfold join. rewrite Hfin. simpl. eexists. split; [done|].
      destruct Hst1 as [Hm1 Hr1 Haw1 Hh1]. split; [|split]; simpl.
      * constructor; simpl; try done.
        -- apply Forall_alter; [done|]. by intros x _ Hx.
        -- apply Forall_alter; [done|]. by intros x _ _.
      * rewrite Hw, list_alter_alter_eq. apply list_alter_ext; [|done].
        intros x Hx. simplify_eq. unfold joined. by rewrite Hj.
      * done.
    + exists s. split; [done|]. split; [done|]. split; [|done].
      symmetry. apply list_eq. intros k. rewrite list_lookup_alter.
      case_decide; [|done]. subst. rewrite Hi. simpl. unfold joined. by rewrite Hj.
  - exists s. split; [done|]. split; [done|]. split; [|done].
    symmetry. apply list_eq. intros k. rewrite list_lookup_alter.
    case_decide; [|done]. subst. by rewrite Hi.
Qed.

Lemma joined_idemp t : joined (joined t) = joined t.
Proof. unfold joined. by destruct t as [[] w]. Qed.

Lemma join_loop l s :
  stopping s →
  ∃ s', foldl (join_if_joinable fuel) (Some s) l = Some s' ∧ stopping s'
        ∧ tasks s' = tasks s
        ∧ ∀ k, workers s' !! k
               = (λ t, if decide (k ∈ l) then joined t else t) <$> workers s !! k.
Proof.
  intros Hst. revert s Hst. induction l as [|i l IH]; intros s Hst; cbn [foldl].
  - exists s. split; [done|]. split; [done|]. split; [done|]. intros k.
    by destruct (workers s !! k).
  - destruct (join_if_joinable_stopping i s Hst) as (s1 & Hj & Hst1 & Hw1 & Ht1).
    rewrite Hj.
    destruct (IH s1 Hst1) as (s' & Hfold & Hst' & Ht' & Hw').
    exists s'. split; [done|]. split; [done|]. split; [congruence|].
    intros k. rewrite Hw', Hw1, list_lookup_alter.
    destruct (decide (i = k)) as [->|Hne];
      (destruct (workers s !! k) as [t|]; simpl; [|done]); f_equal.
    + rewrite (decide_True (P := k ∈ k :: l)) by (by left).
      case_decide; [apply joined_idemp|done].
    + destruct (decide (k ∈ l)) as [Hin|Hni].
      * by rewrite decide_True by (by right).
      * rewrite decide_False; [done|]. by intros [?|?]%elem_of_cons.
Qed.

Lemma stop_signal_stopping s :
  taskMutex s = false →
  Forall (λ w, joinable w = true → at_ w ≠ NoThread) (workers s) →
  ∃ s1, stop_signal s = Some s1 ∧ stopping s1
        ∧ s1 = set_taskMutex false
                 (set_workers (notify_all (workers s))
                    (set_isRunning false (set_taskMutex true s))).
Proof.
  intros Hm Hh. unfold stop_signal, with_lock. rewrite Hm. eexists. split; [done|].
  split; [|done]. constructor; simpl; try done; unfold notify_all.
  - apply Forall_fmap, Forall_true. intros t. apply wake_not_blocked.
  - apply Forall_fmap. eapply Forall_impl; [exact Hh|]. simpl.
    intros t Ht. rewrite wake_joinable. intros Hj. by apply wake_at, Ht.
Qed.

Lemma stop_spec s :
  taskMutex s = false →
  Forall (λ w, joinable w = true → at_ w ≠ NoThread) (workers s) →
  ∃ s', stop fuel s = Some s' ∧ stopping s'
        ∧ tasks s' = tasks s
        ∧ workers s' = joined <$> notify_all (workers s).
Proof.
  intros Hm Hh.
  destruct (stop_signal_stopping s Hm Hh) as (s1 & Hsig & Hst1 & Hs1).
  unfold stop. rewrite Hsig. simpl.
  destruct (join_loop (seq 0 (length (workers s1))) s1 Hst1)
    as (s' & Hfold & Hst' & Ht' & Hw').
  exists s'. split; [done|]. split; [done|]. split; [by rewrite Ht', Hs1|].
  apply list_eq. intros k. rewrite Hw', list_lookup_fmap.
  replace (notify_all (workers s)) with (workers s1) by (by rewrite Hs1).
  destruct (workers s1 !! k) as [t|] eqn:Hk; simpl; [|done].
  rewrite decide_True; [done|]. apply elem_of_seq. apply lookup_lt_Some in Hk. lia.
Qed.

End joining.

Lemma notify_all_awake (ws : list thread) :
  Forall (λ w, is_blocked w = false) ws → notify_all ws = ws.
Proof.
  unfold notify_all. induction 1 as [|w ws Hw _ IH]; [done|].
  rewrite fmap_cons, IH. f_equal. unfold wake. by rewrite Hw.
Qed.

(** Stopping a pool that is stopped changes nothing. *)
Lemma stop_stopped fuel s :
  stopping s → Forall (λ w, joinable w = false) (workers s) →
  stop fuel s = Some s.
Proof.
  intros [Hm Hr Haw Hh] Hnj.
  assert (Hsig : stop_signal s = Some s).
  { unfold stop_signal, with_lock. rewrite Hm. f_equal.
    destruct s as [r n q ws m ps h]; simpl in *. subst.
    unfold set_taskMutex, set_workers, set_isRunning; simpl.
    by rewrite notify_all_awake. }
  unfold stop. rewrite Hsig. simpl.
  generalize (seq 0 (length (workers s))). intros l. induction l as [|i l IH]; [done|].
  simpl. destruct (workers s !! i) as [t|] eqn:Hi; [|done].
  rewrite Forall_forall in Hnj. rewrite (Hnj t); [done|]. by eapply list_elem_of_lookup_2.
Qed.

(** *** Construction and start *)

Lemma held_replicate n t : held t = None → omap held (replicate n t) = [].
Proof. intros Ht. induction n as [|n IH]; [done|]. simpl. by rewrite Ht. Qed.

Lemma pool_inv_new size hw : pool_inv (new_TaskManager size hw).
Proof.
  constructor; simpl; try done.
  - apply Forall_replicate. done.
  - intros _. by apply Forall_replicate.
  - unfold held_ids; simpl. by rewrite held_replicate.
  - apply NoDup_nil_2.
  - intros fid ?. lia.
Qed.

Lemma spawn_workers_spec n s :
  spawn_workers n s
  = Some (set_workers (workers s ++ replicate n (Thread true AtLock)) s).
Proof.
  revert s. induction n as [|n IH]; intros s; simpl.
  - rewrite app_nil_r. by destruct s.
  - rewrite last_snoc. simpl. rewrite IH. simpl. f_equal.
    unfold set_workers; simpl. f_equal. by rewrite <- app_assoc.
Qed.

Lemma start_spec s :
  start s
  = Some (set_workers (workers s ++ replicate (poolSize s) (Thread true AtLock))
            (set_isRunning true s)).
Proof. unfold start. by rewrite spawn_workers_spec. Qed.

Lemma pool_inv_start s s' : pool_inv s → start s = Some s' → pool_inv s'.
Proof.
  intros [Hm Hh Haw Hwk Hfifo Hheld Honce Halloc Hpend]. rewrite start_spec.
  intros [= <-]. constructor; simpl; try done.
  - apply Forall_app. split; [done|]. by apply Forall_replicate.
  - intros Hq [HE|HE]%Exists_app.
    + apply Exists_app. left. by apply Hwk.
    + apply Exists_exists in HE as (w & [-> _]%elem_of_replicate & Hb). done.
  - unfold held_ids in *; simpl. by rewrite omap_app, held_replicate, app_nil_r.
Qed.

Lemma start_serving s s' : 0 < poolSize s → start s = Some s' → serving s'.
Proof.
  rewrite start_spec. intros Hn [= <-]. split; [done|]. simpl.
  apply Exists_app. right. destruct (poolSize s); [lia|]. by left.
Qed.

(** *** One worker *)








(** ** Reachable pools *)

Lemma Exists_alter_inv {A} (P : A → Prop) (f : A → A) i (l : list A) :
  (∀ x, P (f x) → P x) → Exists P (alter f i l) → Exists P l.
Proof.
  intros Hf. rewrite !Exists_exists. intros (y & Hy & HP).
  apply elem_of_alter in Hy as [?|(x & Hx & ->)]; [by eauto|].
  exists x. split; [by eapply list_elem_of_lookup_2|by apply Hf].
Qed.

Lemma held_alter_all (f : thread → thread) i (ws : list thread) :
  (∀ t, held (f t) = held t) → omap held (alter f i ws) = omap held ws.
Proof.
  intros Hf. revert i. induction ws as [|w ws IH]; intros [|i]; simpl; try done.
  - by rewrite Hf.
  - destruct (held w); [f_equal|]; apply IH.
Qed.

(** Changing what is on the handles does not disturb the pool. *)
Lemma pool_inv_handles (f : thread → thread) i s :
  (∀ t, at_ (f t) = at_ t) →
  (∀ t, joinable (f t) = true → joinable t = true) →
  pool_inv s → pool_inv (set_workers (alter f i (workers s)) s).
Proof.
  intros Hat Hj [Hm Hh Haw Hwk Hfifo Hheld Honce Halloc Hpend].
  constructor; simpl; try done.
  - apply Forall_alter; [done|]. intros t _ Ht Hjt. rewrite Hat. by apply Ht, Hj.
  - intros Hr. apply Forall_alter; [by apply Haw|]. intros t _.
    unfold is_blocked. by rewrite Hat.
  - intros Hq HE. apply Exists_alter_keep.
    + intros t. unfold is_active, is_at_lock, is_holding. by rewrite Hat.
    + apply Hwk; [done|]. eapply Exists_alter_inv; [|done].
      intros t. unfold is_blocked. by rewrite Hat.
  - unfold held_ids in *; simpl.
    rewrite held_alter_all; [done|]. intros t. unfold held. by rewrite Hat.
Qed.

Lemma notify_all_held (ws : list thread) : omap held (notify_all ws) = omap held ws.
Proof.
  unfold notify_all. induction ws as [|w ws IH]; [done|].
  rewrite fmap_cons. simpl. rewrite wake_held.
  destruct (held w); [f_equal|]; apply IH.
Qed.

Lemma stop_signal_pool_inv s s1 : pool_inv s → stop_signal s = Some s1 → pool_inv s1.
Proof.
  intros [Hm Hh Haw Hwk Hfifo Hheld Honce Halloc Hpend].
  unfold stop_signal, with_lock. rewrite Hm. intros [= <-].
  assert (Hnb : Forall (λ w, is_blocked w = false) (notify_all (workers s))).
  { apply Forall_fmap, Forall_true. intros t. apply wake_not_blocked. }
  constructor; simpl; try done.
  - apply Forall_fmap. eapply Forall_impl; [exact Hh|]. simpl.
    intros t Ht. rewrite wake_joinable. intros Hj. by apply wake_at, Ht.
  - intros _ HE. by apply no_blocked_not_exists in Hnb.
  - unfold held_ids in *; simpl. by rewrite notify_all_held.
Qed.

Lemma finish_pool_inv fuel i s s' : pool_inv s → finish fuel i s = Some s' → pool_inv s'.
Proof.
  revert s. induction fuel as [|fuel IH]; intros s Hinv; simpl.
  - destruct (at_ <$> workers s !! i) as [[]|]; try done. by intros [= <-].
  - destruct (worker_step i s) as [s1|] eqn:Hstep; simpl.
    + apply worker_step_spec in Hstep.
      pose proof (transition_pool_inv _ _ _ Hinv Hstep) as Hinv1.
      destruct (at_ <$> workers s !! i) as [[]|]; try (by apply IH). by intros [= <-].
    + destruct (at_ <$> workers s !! i) as [[]|]; try done. by intros [= <-].
Qed.

Lemma join_if_joinable_pool_inv fuel i s s' :
  pool_inv s → join_if_joinable fuel (Some s) i = Some s' → pool_inv s'.
Proof.
  intros Hinv. unfold join_if_joinable, join. simpl.
  destruct (workers s !! i) as [t|]; [|by intros [= <-]].
  destruct (joinable t); [|by intros [= <-]].
  destruct (finish fuel i s) as [s1|] eqn:Hfin; simpl; [|done].
  intros [= <-]. apply pool_inv_handles; [done..|]. by eapply finish_pool_inv.
Qed.

Lemma join_loop_pool_inv fuel l s s' :
  pool_inv s → foldl (join_if_joinable fuel) (Some s) l = Some s' → pool_inv s'.
Proof.
  revert s. induction l as [|i l IH]; intros s Hinv; cbn [foldl].
  - by intros [= <-].
  - destruct (join_if_joinable fuel (Some s) i) as [s1|] eqn:Hj.
    + apply IH. by eapply join_if_joinable_pool_inv.
    + clear. induction l as [|j l IH]; [done|]. done.
Qed.

Lemma pool_inv_stop fuel s s' : pool_inv s → stop fuel s = Some s' → pool_inv s'.
Proof.
  intros Hinv. unfold stop.
  destruct (stop_signal s) as [s1|] eqn:Hsig; simpl; [|done].
  apply join_loop_pool_inv. by eapply stop_signal_pool_inv.
Qed.

(** The invariant holds of every pool that the operations can produce. *)
Lemma reachable_pool_inv s : reachable s → pool_inv s.
Proof.
  induction 1 as [size hw|s s' _ IH Hstart|fuel s s' _ IH Hstop|a s s' _ IH Ha].
  - apply pool_inv_new.
  - by eapply pool_inv_start.
  - by eapply pool_inv_stop.
  - by eapply perform_pool_inv.
Qed.

(** ** Overloads *)

Lemma resolve_enabled function callback rest c :
  resolve function callback rest = Some c →
  enabled c = true ∧ task_of c = function ∧ callback_of c = callback.
Proof.
  unfold resolve. destruct (is_member_pointer callback) eqn:Hcb; simpl.
  - destruct rest as [|instance args]; [done|].
    destruct (is_member_pointer function) eqn:Hf; intros [= <-]; simpl;
      by rewrite Hf, Hcb.
  - intros [= <-]. simpl. by rewrite Hcb.
Qed.

(** The demo's call with a member task and a null free callback. *)
Lemma resolve_scenario_d f :
  resolve (Callable true (Some f)) null_function
          [VObj "Component" []; VInt 1; VStr "test"]
  = Some (FreeCallback (Callable true (Some f)) null_function
            [VObj "Component" []; VInt 1; VStr "test"]).
Proof. reflexivity. Qed.

(** ** Null handles *)

Lemma dispatch_valid_pending pick g args s fut s' :
  dispatch pick g args s = Some (fut, s') →
  valid fut = true →
  is_nullptr g = false
  ∧ ∃ id, fut = Future id ∧ promises s' !! id = Some Pending
          ∧ length (tasks s') = S (length (tasks s)).
Proof.
  unfold dispatch, is_nullptr. destruct (target g) as [f|]; simpl.
  - unfold pushTask, with_lock; simpl. destruct (taskMutex s); simpl; [done|].
    intros [= <- <-] _. split; [done|]. eexists; split; [done|]. simpl. split.
    + by rewrite lookup_app_r, Nat.sub_diag.
    + rewrite length_app; simpl; lia.
  - by intros [= <- <-].
Qed.

(** C4: [dispatch] on a null callable returns at once, also while
    another thread holds the mutex, with the pool unchanged (no shared
    state, no queue element) and a future that is not valid; a future
    that is valid comes from a non-null callable, is pending and has
    cost one queue element. *)
Theorem dispatch_null_callable pick function args s :
  is_nullptr function = true →
  dispatch pick function args s = Some (InvalidFuture, s)
  ∧ valid InvalidFuture = false
  ∧ (∀ g fut s', dispatch pick g args s = Some (fut, s') → valid fut = true →
        is_nullptr g = false
        ∧ ∃ id, fut = Future id ∧ promises s' !! id = Some Pending
                ∧ length (tasks s') = S (length (tasks s))).
Proof.
  intros Hnull. split; [|split; [done|]].
  - unfold dispatch. unfold is_nullptr in Hnull.
    by destruct (target function).
  - intros g fut s'. apply dispatch_valid_pending.
Qed.

Lemma dispatch_null_callable_witness :
  is_nullptr null_function = true
  ∧ dispatch 0 null_function [VInt 1] (set_taskMutex true queued_at_shutdown)
    = Some (InvalidFuture, set_taskMutex true queued_at_shutdown).
Proof.
  split; [reflexivity|].
  exact (proj1 (dispatch_null_callable 0 null_function [VInt 1]
                  (set_taskMutex true queued_at_shutdown) eq_refl)).
Defined.

(** A non-null dispatch has to take the mutex. *)
Lemma dispatch_blocks_on_mutex pick function args s :
  is_nullptr function = false → taskMutex s = true →
  dispatch pick function args s = None.
Proof.
  unfold dispatch, is_nullptr. destruct (target function); [|done].
  intros _ Hm. unfold pushTask, with_lock; simpl. by rewrite Hm.
Qed.

(** C5: each overload of [dispatchCallback] returns an invalid future
    at once when the callback is a null handle, whatever the task
    callable is: the pool is left as it was, so nothing is created,
    enqueued or executed. *)
Theorem dispatchCallback_null_callback pick function callback instance args s :
  is_nullptr callback = true →
  dispatchCallback pick function callback args s = Some (InvalidFuture, s)
  ∧ dispatchCallback_member pick function callback instance args s
    = Some (InvalidFuture, s)
  ∧ dispatchCallback_members pick function callback instance args s
    = Some (InvalidFuture, s)
  ∧ valid InvalidFuture = false.
Proof.
  unfold is_nullptr, dispatchCallback, dispatchCallback_member,
    dispatchCallback_members.
  destruct (target callback); [done|]. intros _.
  by destruct (target function).
Qed.

Lemma dispatchCallback_null_callback_witness :
  is_nullptr null_function = true
  ∧ dispatchCallback 0 (Callable true (Some (λ _, Returned (VObj "Result" [("value", "result")]))))
      null_function [VObj "Component" []; VInt 1; VStr "test"] queued_at_shutdown
    = Some (InvalidFuture, queued_at_shutdown).
Proof.
  split; [reflexivity|].
  exact (proj1 (dispatchCallback_null_callback 0 _ null_function VVoid _
                  queued_at_shutdown eq_refl)).
Defined.

(** The same for a null task callable. *)
Lemma dispatchCallback_null_function pick function callback instance args s :
  is_nullptr function = true →
  dispatchCallback pick function callback args s = Some (InvalidFuture, s)
  ∧ dispatchCallback_member pick function callback instance args s
    = Some (InvalidFuture, s)
  ∧ dispatchCallback_members pick function callback instance args s
    = Some (InvalidFuture, s).
Proof.
  unfold is_nullptr, dispatchCallback, dispatchCallback_member,
    dispatchCallback_members.
  by destruct (target function).
Qed.

(** ** The worker loop *)

(** A worker that holds an empty function object does not call it. *)
Lemma popped_null_unit i s t :
  workers s !! i = Some t →
  at_ t = Popped None →
  worker_step i s = Some (set_worker i AtLock s).
Proof. intros Hi Hat. unfold worker_step. by rewrite Hi, Hat. Qed.

(** C10: a worker of a running pool that finds an empty function
    object at the front of the queue removes it and, on its next
    transition, goes back to the head of its loop without calling
    anything: the history (no task counts as executed) and the shared
    states are as before, the pool still runs, and the worker is
    alive and can take the next turn of its loop. *)
Theorem null_unit_is_skipped i s t rest :
  workers s !! i = Some t → at_ t = AtLock →
  taskMutex s = false → isRunning s = true →
  tasks s = None :: rest →
  ∃ s1 s2,
    worker_step i s = Some s1
    ∧ workers s1 !! i = Some (Thread (joinable t) (Popped None))
    ∧ worker_step i s1 = Some s2
    ∧ workers s2 !! i = Some (Thread (joinable t) AtLock)
    ∧ history s2 = history s ∧ promises s2 = promises s
    ∧ tasks s2 = rest ∧ isRunning s2 = true
    ∧ is_Some (worker_step i s2).
Proof.
  intros Hi Hat Hm Hr Hq.
  assert (H1 : transition i s (set_worker i (Popped None)
                                 (log (dequeue_events None) (set_tasks rest s))))
    by (by eapply worker_pops).
  set (s1 := set_worker i (Popped None) (log (dequeue_events None) (set_tasks rest s))) in *.
  assert (Hi1 : workers s1 !! i = Some (Thread (joinable t) (Popped None)))
    by (by apply set_worker_lookup).
  assert (Hi2 : workers (set_worker i AtLock s1) !! i = Some (Thread (joinable t) AtLock))
    by (by apply (set_worker_lookup i AtLock s1 _ Hi1)).
  exists s1, (set_worker i AtLock s1).
  split; [by apply worker_step_spec|]. split; [done|].
  split; [by apply (popped_null_unit i s1 _ Hi1)|]. split; [done|].
  split; [by simpl; rewrite app_nil_r|]. split; [done|]. split; [done|]. split; [done|].
  unfold worker_step. rewrite Hi2. simpl. rewrite Hm, Hr. simpl. by destruct rest.
Qed.

Lemma null_unit_is_skipped_witness :
  ∃ s1 s2,
    worker_step 1 null_unit_queued = Some s1
    ∧ workers s1 !! 1 = Some (Thread true (Popped None))
    ∧ worker_step 1 s1 = Some s2
    ∧ workers s2 !! 1 = Some (Thread true AtLock)
    ∧ history s2 = [] ∧ promises s2 = []
    ∧ tasks s2 = [] ∧ isRunning s2 = true
    ∧ is_Some (worker_step 1 s2).
Proof.
  exact (null_unit_is_skipped 1 null_unit_queued (Thread true AtLock) []
           eq_refl eq_refl eq_refl eq_refl eq_refl).
Defined.

(** [queued_at_shutdown] is what [start], a [dispatch] and the critical
    section of [stop] leave when they run before the worker does. *)
Lemma queued_at_shutdown_reached :
  (s ← start (new_TaskManager 1 1);
   '(_, s) ← dispatch 0 returns_two [VInt 1] s;
   stop_signal s) = Some queued_at_shutdown.
Proof. reflexivity. Qed.

(** There the worker returns although a task is queued: the loop ends
    on the running flag alone. *)
Lemma worker_exits_with_queued_task : ¬ exits_only_when_drained.
Proof.
  intros H.
  destruct (H 1 queued_at_shutdown (set_worker 1 Exited queued_at_shutdown))
    as [_ Hq]; [reflexivity..|]. discriminate Hq.
Qed.

(** C2 (as the code has it): a worker returns exactly when, at the
    lock, it finds the running flag cleared, and then it leaves the
    queue and the history as they are, whether or not tasks are
    queued; a worker that reaches the lock of a running pool with a
    non-empty queue removes the front unit and nothing else, and its
    next transition calls that unit. *)
Theorem worker_loop_paths i s s' t :
  workers s !! i = Some t →
  worker_step i s = Some s' →
  (at_ <$> workers s' !! i = Some Exited ↔ at_ t = AtLock ∧ isRunning s = false)
  ∧ (at_ <$> workers s' !! i = Some Exited →
       tasks s' = tasks s ∧ history s' = history s ∧ promises s' = promises s)
  ∧ (at_ t = AtLock → isRunning s = true →
       ∀ task rest, tasks s = task :: rest →
         tasks s' = rest
         ∧ workers s' !! i = Some (Thread (joinable t) (Popped task))
         ∧ worker_step i s' = Some (set_worker i AtLock (call_unit task s'))).
Proof.
  intros Hi Hstep. apply worker_step_spec in Hstep.
  destruct Hstep as [t' Hi' Hat Hmx Hr|t' Hi' Hat Hmx Hr Hq|t' task rest Hi' Hat Hmx Hr Hq
                    |t' task Hi' Hat]; simplify_eq; simpl;
    rewrite ?call_unit_workers, list_lookup_alter_eq, Hi; simpl.
  - split; [done|]. split; [done|]. intros _ ?. congruence.
  - split; [|split].
    + split; [done|]. intros [_ ?]. congruence.
    + done.
    + intros _ _ task rest ?. congruence.
  - split; [|split].
    + split; [done|]. intros [_ ?]. congruence.
    + done.
    + intros _ _ task' rest' Hq'. rewrite Hq in Hq'. injection Hq' as <- <-.
      split; [done|]. split; [done|].
      unfold worker_step. simpl. by rewrite list_lookup_alter_eq, Hi.
  - split; [|split].
    + split; [done|]. intros [? _]. congruence.
    + done.
    + intros ?. congruence.
Qed.

Lemma worker_loop_paths_witness :
  workers queued_at_shutdown !! 1 = Some (Thread true AtLock)
  ∧ worker_step 1 queued_at_shutdown = Some (set_worker 1 Exited queued_at_shutdown)
  ∧ (at_ <$> workers (set_worker 1 Exited queued_at_shutdown) !! 1 = Some Exited
     ↔ at_ (Thread true AtLock) = AtLock ∧ isRunning queued_at_shutdown = false).
Proof.
  split; [reflexivity|]. split; [reflexivity|].
  exact (proj1 (worker_loop_paths 1 queued_at_shutdown
                  (set_worker 1 Exited queued_at_shutdown) (Thread true AtLock)
                  eq_refl eq_refl)).
Defined.

(** ** Executions *)

Lemma execute_pool_inv acts s s' :
  pool_inv s → execute acts s = Some s' → pool_inv s'.
Proof.
  revert s. induction acts as [|a acts IH]; intros s Hinv; simpl.
  - by intros [= <-].
  - destruct (perform a s) as [s1|] eqn:Ha; simpl; [|done].
    apply IH. by eapply perform_pool_inv.
Qed.

Lemma execute_task_inv acts s s' T :
  pool_inv s → task_inv T s → execute acts s = Some s' → task_inv T s'.
Proof.
  revert s. induction acts as [|a acts IH]; intros s Hinv HT; simpl.
  - by intros [= <-].
  - destruct (perform a s) as [s1|] eqn:Ha; simpl; [|done].
    apply IH; [by eapply perform_pool_inv|by eapply perform_task_inv].
Qed.

Lemma execute_serving acts s s' :
  serving s → execute acts s = Some s' → serving s'.
Proof.
  revert s. induction acts as [|a acts IH]; intros s Hs; simpl.
  - by intros [= <-].
  - destruct (perform a s) as [s1|] eqn:Ha; simpl; [|done].
    apply IH. by eapply perform_serving.
Qed.


(** ** Futures *)


Lemma pool_inv_started_pool : pool_inv started_pool.
Proof.
  apply (pool_inv_start (new_TaskManager 1 1)); [apply pool_inv_new|reflexivity].
Qed.

Lemma serving_started_pool : serving started_pool.
Proof. apply (start_serving (new_TaskManager 1 1)); [simpl; lia|reflexivity]. Qed.


(** Scenario A, run: the worker pops the task and calls it. *)
Lemma scenario_a_result :
  (s ← run [1; 1] scenario_a; Some (promises s, history s))
  = Some ([Ready (Returned (VInt 2))], [Enqueued 0; Dequeued 0; Invoked 0]).
Proof. reflexivity. Qed.

(** A pool that is stopped before a worker has popped the task leaves
    its future pending: the only transition left is the worker's
    return. *)
Lemma future_abandoned_at_shutdown sched s :
  run sched queued_at_shutdown = Some s →
  promises s !! 0 = Some Pending ∧ tasks s = tasks queued_at_shutdown.
Proof.
  destruct sched as [|[|[|i]] sched]; simpl; try done.
  - by intros [= <-].
  - destruct sched as [|[|[|j]] sched]; simpl; try done. by intros [= <-].
Qed.

(** C3: for each overload of [dispatchCallback] with non-null
    handles, whatever happens next, either nothing of the task has
    run and its future is pending, or the task callable was invoked
    once and, if it returned a value, the callback was invoked once,
    after it and on that value, and if it failed, the callback was
    not invoked and the failure is in the future; on a serving pool
    the second case holds once the workers have come to rest. *)
Theorem callback_only_after_result pick c f cb s fut s1 :
  pool_inv s →
  target (task_of c) = Some f → target (callback_of c) = Some cb →
  dispatchCallback_call pick c s = Some (fut, s1) →
  ∃ fid,
    fut = Future fid
    ∧ ∀ acts s2, execute acts s1 = Some s2 →
        ((execution_of fid (history s2) = [] ∧ promises s2 !! fid = Some Pending)
         ∨ delivered c f cb fid s2)
        ∧ (serving s → quiescent s2 → delivered c f cb fid s2).
Proof.
  intros Hinv Hf Hcb Hd.
  apply dispatchCallback_cases in Hd
    as [([?|?] & _)|(f' & cb' & T & s0 & Hf' & Hcb' & Hmk & Hp & ->)]; [congruence..|].
  assert (f' = f) as -> by congruence. assert (cb' = cb) as -> by congruence.
  destruct (push_fresh pick _ _ s T s0 s1 Hinv Hmk Hp)
    as (Hinv1 & HT1 & Hid & Hni & _).
  assert (Hdone : ∀ s2,
    promises s2 !! promise T = Some (Ready (run_packaged T).2)
    ∧ execution_of (promise T) (history s2) = (run_packaged T).1 →
    delivered c f cb (promise T) s2).
  { intros s2 [Hp2 He2]. unfold delivered. injection Hmk as HT _. subst T.
    unfold run_packaged, invoke in *; simpl in *.
    by destruct (f (task_args c)). }
  exists (promise T). split; [done|]. intros acts s2 Hex.
  pose proof (execute_pool_inv _ _ _ Hinv1 Hex) as Hinv2.
  pose proof (execute_task_inv _ _ _ _ Hinv1 HT1 Hex) as HT2.
  split.
  - destruct (task_progress s2 T Hinv2 HT2) as [[? ?]|[? ?]]; [by left|].
    right. by apply Hdone.
  - intros Hserv Hq. apply Hdone.
    assert (Hserv1 : serving s1).
    { injection Hmk as <- <-. eapply push_serving; [|done]. exact Hserv. }
    pose proof (execute_serving _ _ _ Hserv1 Hex) as Hserv2.
    destruct (quiescent_settled s2 T Hinv2 HT2 Hserv2 Hq). done.
Qed.

Lemma callback_only_after_result_witness :
  ∃ fid,
    Future 0 = Future fid
    ∧ ∀ acts s2, execute acts scenario_c = Some s2 →
        ((execution_of fid (history s2) = [] ∧ promises s2 !! fid = Some Pending)
         ∨ delivered returns_four_then_print (λ _, Returned (VInt 4))
             (λ _, Returned VVoid) fid s2)
        ∧ (serving started_pool → quiescent s2 →
           delivered returns_four_then_print (λ _, Returned (VInt 4))
             (λ _, Returned VVoid) fid s2).
Proof.
  exact (callback_only_after_result 0 returns_four_then_print
           (λ _, Returned (VInt 4)) (λ _, Returned VVoid)
           started_pool (Future 0) scenario_c
           pool_inv_started_pool eq_refl eq_refl eq_refl).
Defined.

(** Scenario C, run: the callback receives 4 once, after the task. *)
Lemma scenario_c_history :
  (s ← run [1; 1] scenario_c; Some (promises s, history s))
  = Some ([Ready (Returned VVoid)],
          [Enqueued 0; Dequeued 0; Invoked 0; CalledBack 0 (VInt 4)]).
Proof. reflexivity. Qed.

(** ** Order of execution *)






(** ** Lifecycle *)

Lemma start_leaves_workers_at_lock s :
  ∃ s', start s = Some s'
        ∧ workers s' = workers s ++ replicate (poolSize s) (Thread true AtLock)
        ∧ isRunning s' = true.
Proof. rewrite start_spec. by eexists. Qed.

(** C7 (what the code does): [start] on a pool of size one returns
    with the spawned worker at the head of its loop, where it has
    neither taken the lock nor begun to wait: a handle is joinable
    as soon as its thread is constructed, so the barrier does not
    wait for anything. *)
Theorem start_returns_before_workers_wait :
  start (new_TaskManager 1 1) = Some started_pool
  ∧ workers started_pool !! 1 = Some (Thread true AtLock)
  ∧ Forall (λ w, is_blocked w = false) (workers started_pool).
Proof. split; [done|]. split; [done|]. by repeat constructor. Qed.

(** A [stop] issued right after [start] still ends every worker: the
    wait predicate is tested under the lock before the worker sleeps. *)
Lemma stop_after_start size hw fuel :
  2 ≤ fuel →
  ∃ s1 s2,
    start (new_TaskManager size hw) = Some s1 ∧ stop fuel s1 = Some s2
    ∧ isRunning s2 = false
    ∧ workers s2 = replicate size default_thread
                   ++ replicate (poolSize s1) (Thread false Exited).
Proof.
  intros Hfuel. destruct (start_leaves_workers_at_lock (new_TaskManager size hw))
    as (s1 & Hstart & Hws & _).
  pose proof (pool_inv_start _ _ (pool_inv_new size hw) Hstart) as Hinv1.
  destruct (stop_spec fuel Hfuel s1 (inv_mutex s1 Hinv1) (inv_handles s1 Hinv1))
    as (s2 & Hstop & Hst & _ & Hws2).
  exists s1, s2. split; [done|]. split; [done|]. split; [apply Hst|].
  assert (Hps : poolSize s1 = poolSize (new_TaskManager size hw)).
  { rewrite start_spec in Hstart. by injection Hstart as <-. }
  rewrite Hws2, Hws, Hps. unfold notify_all.
  rewrite !fmap_app. simpl. by rewrite !fmap_replicate.
Qed.

Lemma joined_not_joinable (ws : list thread) :
  Forall (λ w, joinable w = false) (joined <$> ws).
Proof.
  apply Forall_fmap, Forall_true. intros [[] w]; done.
Qed.



(** A pool that was never started is stopped: [stop] returns it. *)
Lemma stop_new size hw fuel :
  stop fuel (new_TaskManager size hw) = Some (new_TaskManager size hw).
Proof.
  apply stop_stopped.
  - constructor; simpl; try done; by apply Forall_replicate.
  - by apply Forall_replicate.
Qed.

(** [stop] cannot go on while another thread holds the mutex. *)
Lemma stop_blocks_on_mutex fuel s : taskMutex s = true → stop fuel s = None.
Proof. intros Hm. unfold stop, stop_signal, with_lock. by rewrite Hm. Qed.

(** C9: the destructor of a pool whose flag is set is a [stop], which
    clears the flag and joins every joinable worker; the destructor of
    a pool whose flag is clear returns the pool untouched. *)
Theorem destructor_stops_running_pool fuel s :
  taskMutex s = false →
  Forall (λ w, joinable w = true → at_ w ≠ NoThread) (workers s) →
  2 ≤ fuel →
  (isRunning s = true →
     destroy fuel s = stop fuel s
     ∧ ∃ s', destroy fuel s = Some s' ∧ isRunning s' = false
             ∧ workers s' = joined <$> notify_all (workers s)
             ∧ Forall (λ w, joinable w = false) (workers s'))
  ∧ (isRunning s = false → destroy fuel s = Some s).
Proof.
  intros Hm Hh Hfuel. unfold destroy. split; intros ->; [|done].
  split; [done|].
  destruct (stop_spec fuel Hfuel s Hm Hh) as (s' & Hstop & Hst & _ & Hws).
  exists s'. split; [done|]. split; [apply Hst|]. split; [done|].
  rewrite Hws. apply joined_not_joinable.
Qed.

Lemma destructor_stops_running_pool_witness :
  (destroy 2 scenario_a = stop 2 scenario_a
   ∧ ∃ s', destroy 2 scenario_a = Some s' ∧ isRunning s' = false
           ∧ workers s' = joined <$> notify_all (workers scenario_a)
           ∧ Forall (λ w, joinable w = false) (workers s'))
  ∧ destroy 2 scenario_a_done = stop 2 scenario_a_done
  ∧ destroy 2 (new_TaskManager 2 4) = Some (new_TaskManager 2 4).
Proof.
  assert (Ha : Forall (λ w, joinable w = true → at_ w ≠ NoThread)
                  (workers scenario_a))
    by (repeat constructor; simpl; congruence).
  assert (Hd : Forall (λ w, joinable w = true → at_ w ≠ NoThread)
                  (workers scenario_a_done))
    by (repeat constructor; simpl; congruence).
  assert (Hn : Forall (λ w, joinable w = true → at_ w ≠ NoThread)
                  (workers (new_TaskManager 2 4)))
    by (repeat constructor; simpl; congruence).
  split; [|split].
  - exact (proj1 (destructor_stops_running_pool 2 scenario_a eq_refl Ha (le_n 2))
             eq_refl).
  - exact (proj1 (proj1 (destructor_stops_running_pool 2 scenario_a_done eq_refl
                           Hd (le_n 2)) eq_refl)).
  - exact (proj2 (destructor_stops_running_pool 2 (new_TaskManager 2 4) eq_refl
                    Hn (le_n 2)) eq_refl).
Defined.

(** ** The whole life of a pool *)





Lemma foldl_join_None fuel l : foldl (join_if_joinable fuel) None l = None.
Proof. by induction l. Qed.







(** What a step leaves alone. *)
Lemma set_result_ready fid o ps k r :
  ps !! k = Some (Ready r) → set_result fid o ps !! k = Some (Ready r).
Proof.
  intros Hk. unfold set_result. destruct (ps !! fid) as [[]|] eqn:Hf; try done.
  rewrite list_lookup_insert_ne; [done|]. intros ->. congruence.
Qed.

Lemma call_unit_ready task s k r :
  promises s !! k = Some (Ready r) → promises (call_unit task s) !! k = Some (Ready r).
Proof.
  destruct task as [T|]; simpl; [|done]. destruct (run_packaged T). simpl.
  apply set_result_ready.
Qed.

Lemma call_unit_length task s :
  length (promises (call_unit task s)) = length (promises s).
Proof.
  destruct task as [T|]; simpl; [|done]. destruct (run_packaged T). simpl.
  apply set_result_length.
Qed.

Lemma kept_refl s : kept s s.
Proof. by constructor. Qed.

Lemma kept_trans s1 s2 s3 : kept s1 s2 → kept s2 s3 → kept s1 s3.
Proof.
  intros [H1 H2 H3] [H1' H2' H3']. constructor; [congruence|lia|auto].
Qed.

Lemma transition_kept i s s' : transition i s s' → kept s s'.
Proof.
  intros Hstep. transition_cases Hstep; constructor; simpl; try done.
  - destruct task as [T|]; simpl; [destruct (run_packaged T)|]; done.
  - by rewrite call_unit_length.
  - intros k r. apply call_unit_ready.
Qed.

Lemma pushTask_kept pick T s s' : pushTask pick T s = Some s' → kept s s'.
Proof.
  unfold pushTask, with_lock. destruct (taskMutex s); [done|]. intros [= <-].
  by constructor.
Qed.

Lemma make_packaged_task_kept body cb s T s0 :
  make_packaged_task body cb s = (T, s0) → kept s s0.
Proof.
  intros [= <- <-]. constructor; simpl; [done|rewrite length_app; lia|].
  intros k r Hk. rewrite lookup_app_l; [done|]. by eapply lookup_lt_Some.
Qed.

Lemma perform_kept a s s' : perform a s = Some s' → kept s s'.
Proof.
  destruct a as [i|pick function args|pick c]; simpl.
  - intros ?%worker_step_spec. by eapply transition_kept.
  - destruct (dispatch _ _ _ _) as [[fut s1]|] eqn:Hd; simpl; [|done]. intros [= <-].
    apply dispatch_cases in Hd as [(_ & _ & ->)|(f & T & s0 & _ & Hmk & Hp & _)];
      [apply kept_refl|].
    eapply kept_trans; [by eapply make_packaged_task_kept|by eapply pushTask_kept].
  - destruct (dispatchCallback_call _ _ _) as [[fut s1]|] eqn:Hd; simpl; [|done].
    intros [= <-].
    apply dispatchCallback_cases in Hd
      as [(_ & _ & ->)|(f & cb & T & s0 & _ & _ & Hmk & Hp & _)]; [apply kept_refl|].
    eapply kept_trans; [by eapply make_packaged_task_kept|by eapply pushTask_kept].
Qed.

Lemma start_kept s s' : start s = Some s' → kept s s'.
Proof. rewrite start_spec. intros [= <-]. by constructor. Qed.

Lemma finish_kept fuel i s s' : finish fuel i s = Some s' → kept s s'.
Proof.
  revert s. induction fuel as [|fuel IH]; intros s; simpl.
  - destruct (at_ <$> workers s !! i) as [[]|]; try done. intros [= <-]. apply kept_refl.
  - destruct (worker_step i s) as [s1|] eqn:Hstep; simpl.
    + apply worker_step_spec, transition_kept in Hstep.
      destruct (at_ <$> workers s !! i) as [[]|];
        try (intros H%IH; by eapply kept_trans).
      intros [= <-]. apply kept_refl.
    + destruct (at_ <$> workers s !! i) as [[]|]; try done. intros [= <-]. apply kept_refl.
Qed.

Lemma join_if_joinable_kept fuel i s s' :
  join_if_joinable fuel (Some s) i = Some s' → kept s s'.
Proof.
  unfold join_if_joinable, join. simpl.
  destruct (workers s !! i) as [t|]; [|intros [= <-]; apply kept_refl].
  destruct (joinable t); [|intros [= <-]; apply kept_refl].
  destruct (finish fuel i s) as [s1|] eqn:Hfin; simpl; [|done].
  intros [= <-]. apply finish_kept in Hfin as [H1 H2 H3]. by constructor.
Qed.

Lemma join_loop_kept fuel l s s' :
  foldl (join_if_joinable fuel) (Some s) l = Some s' → kept s s'.
Proof.
  revert s. induction l as [|i l IH]; intros s; cbn [foldl].
  - intros [= <-]. apply kept_refl.
  - destruct (join_if_joinable fuel (Some s) i) as [s1|] eqn:Hj.
    + intros H%IH. eapply kept_trans; [by eapply join_if_joinable_kept|done].
    + by rewrite foldl_join_None.
Qed.

Lemma stop_kept fuel s s' : stop fuel s = Some s' → kept s s'.
Proof.
  unfold stop. destruct (stop_signal s) as [s1|] eqn:Hsig; simpl; [|done].
  intros H%join_loop_kept. eapply kept_trans; [|done].
  unfold stop_signal, with_lock in Hsig. destruct (taskMutex s); [done|].
  injection Hsig as <-. by constructor.
Qed.

Lemma operate_kept ops s s' : operate ops s = Some s' → kept s s'.
Proof.
  revert s. induction ops as [|o ops IH]; intros s; simpl.
  - intros [= <-]. apply kept_refl.
  - destruct (operate1 o s) as [s1|] eqn:Ho; simpl; [|done]. intros H%IH.
    eapply kept_trans; [|done].
    destruct o as [a| |fuel]; simpl in Ho;
      [by eapply perform_kept|by eapply start_kept|by eapply stop_kept].
Qed.

Lemma submitted_cases s fut s' :
  submitted s fut s' →
  (fut = InvalidFuture ∧ s' = s)
  ∨ ∃ pick body cb T s0,
      make_packaged_task body cb s = (T, s0) ∧ pushTask pick T s0 = Some s'
      ∧ fut = Future (promise T).
Proof.
  intros [(pick & function & args & Hd)|(pick & c & Hd)].
  - apply dispatch_cases in Hd as [(_ & -> & ->)|(f & T & s0 & _ & Hmk & Hp & ->)];
      [by left|]. right. by eexists _, _, _, _, _.
  - apply dispatchCallback_cases in Hd
      as [(_ & -> & ->)|(f & cb & T & s0 & _ & _ & Hmk & Hp & ->)]; [by left|].
    right. by eexists _, _, _, _, _.
Qed.

Lemma submitted_id s i s' :
  submitted s (Future i) s' →
  i = length (promises s) ∧ length (promises s') = S i
  ∧ promises s' = promises s ++ [Pending].
Proof.
  intros [[? _]|(pick & body & cb & T & s0 & Hmk & Hp & Hf)]%submitted_cases; [done|].
  injection Hf as ->. injection Hmk as <- <-.
  unfold pushTask, with_lock in Hp. simpl in Hp. destruct (taskMutex s); [done|].
  injection Hp as <-. simpl. rewrite length_app. simpl. split; [done|]. split; [lia|done].
Qed.

(** X8: shared states are never reused: a valid future returned by
    a later call of [dispatch] or [dispatchCallback] has a larger
    index than a valid future returned earlier, whatever happened in
    between, and its shared state is pending. *)
Theorem futures_are_fresh s i s1 ops s2 j s3 :
  submitted s (Future i) s1 →
  operate ops s1 = Some s2 →
  submitted s2 (Future j) s3 →
  i < j ∧ promises s3 !! j = Some Pending.
Proof.
  intros (-> & Hl1 & _)%submitted_id Hops (-> & _ & Hp3)%submitted_id.
  apply operate_kept in Hops as [_ Hlen _]. split; [lia|].
  by rewrite Hp3, lookup_app_r, Nat.sub_diag.
Qed.

(** X7: a result stored in a shared state is final: no client
    call, worker transition, [start] or [stop] changes or removes
    it. *)
Theorem fulfilled_future_is_final ops s s' fid o :
  promises s !! fid = Some (Ready o) →
  operate ops s = Some s' →
  promises s' !! fid = Some (Ready o).
Proof. intros Hf Hops. by eapply (kept_ready s s' (operate_kept _ _ _ Hops)). Qed.

Lemma blocked_alter_wake (ws : list thread) j t :
  ws !! j = Some t → is_blocked t = true →
  length (filter (λ w, is_blocked w = true) (alter wake j ws))
  = pred (length (filter (λ w, is_blocked w = true) ws)).
Proof.
  intros Hj Hb. destruct (alter_middle wake ws j t Hj) as (pre & post & -> & -> & _).
  rewrite !filter_app, !filter_cons, !length_app.
  rewrite (decide_True (P := is_blocked t = true)) by done.
  rewrite (decide_False (P := is_blocked (wake t) = true))
    by (by rewrite wake_not_blocked).
  simpl. lia.
Qed.

Lemma no_blocked_count (ws : list thread) :
  Forall (λ w, is_blocked w = false) ws →
  length (filter (λ w, is_blocked w = true) ws) = 0.
Proof.
  induction 1 as [|w ws Hw _ IH]; [done|].
  rewrite filter_cons, decide_False; [done|congruence].
Qed.

(** X4: [pushTask], once it has the mutex, appends the task at the
    back of the queue, leaves the shared states, the flag and the
    number of handles alone, and wakes one sleeping worker if there
    is one (the count of sleepers drops by one, or stays 0): the
    worker the notification picks, when that one sleeps. *)
Theorem pushTask_appends_and_wakes_one pick newTask s s' :
  pushTask pick newTask s = Some s' →
  tasks s' = tasks s ++ [Some newTask]
  ∧ promises s' = promises s
  ∧ isRunning s' = isRunning s
  ∧ length (workers s') = length (workers s)
  ∧ blocked_count s' = pred (blocked_count s)
  ∧ (∀ t, workers s !! pick = Some t → is_blocked t = true →
          workers s' = alter wake pick (workers s)).
Proof.
  unfold pushTask, with_lock. destruct (taskMutex s); [done|]. intros [= <-]. simpl.
  split; [done|]. split; [done|]. split; [done|]. unfold blocked_count. simpl.
  split; [|split].
  - destruct (notify_one_cases pick (workers s)) as [[_ ->]|(j & t & _ & _ & ->)];
      [done|apply length_alter].
  - destruct (notify_one_cases pick (workers s)) as [[Hnb ->]|(j & t & Hj & Hb & ->)].
    + by rewrite no_blocked_count.
    + by eapply blocked_alter_wake.
  - intros t Ht Hb. unfold notify_one. rewrite Ht. destruct t as [jn w].
    unfold is_blocked in Hb. simpl in Hb. by destruct w.
Qed.

(** X5: no task is stranded on a serving pool: while a task is
    queued or in the hands of a worker, some worker can move, and the
    move brings the pool closer to rest. *)
Theorem queued_work_can_be_taken s :
  pool_inv s → serving s →
  tasks s ≠ [] ∨ held_ids s ≠ [] →
  ∃ i s', worker_step i s = Some s' ∧ measure s' < measure s.
Proof.
  intros Hinv Hserv Hwork.
  destruct (list_find (λ i, is_Some (worker_step i s)) (seq 0 (length (workers s))))
    as [[j i]|] eqn:Hfind.
  - apply list_find_Some in Hfind as (_ & [s' Hstep] & _). exists i, s'.
    split; [done|]. by apply worker_step_spec, transition_measure in Hstep.
  - exfalso. assert (Hq : quiescent s).
    { intros i. destruct (worker_step i s) as [s1|] eqn:Hstep; [|done].
      apply list_find_None in Hfind. rewrite Forall_forall in Hfind.
      exfalso. apply (Hfind i); [|by rewrite Hstep].
      apply elem_of_seq. split; [lia|]. simpl.
      unfold worker_step in Hstep. destruct (workers s !! i) eqn:Hi; [|done].
      by eapply lookup_lt_Some. }
    destruct (quiescent_drained s Hinv Hserv Hq) as [Ht Hh].
    by destruct Hwork.
Qed.

Lemma not_live_stuck i s :
  Forall (λ w, is_live w = false) (workers s) → worker_step i s = None.
Proof.
  intros Hl. unfold worker_step. destruct (workers s !! i) as [t|] eqn:Hi; [|done].
  rewrite Forall_forall in Hl. specialize (Hl t (list_elem_of_lookup_2 _ _ _ Hi)).
  by destruct t as [jn []].
Qed.

Lemma not_live_not_blocked (ws : list thread) :
  Forall (λ w, is_live w = false) ws → Forall (λ w, is_blocked w = false) ws.
Proof. intros H. eapply Forall_impl; [exact H|]. by intros [jn []]. Qed.

Lemma pushTask_no_live pick T s s' :
  Forall (λ w, is_live w = false) (workers s) →
  pushTask pick T s = Some s' →
  workers s' = workers s ∧ tasks s' = tasks s ++ [Some T]
  ∧ promises s' = promises s
  ∧ history s' = history s ++ [Enqueued (promise T)].
Proof.
  intros Hl. unfold pushTask, with_lock. destruct (taskMutex s); [done|].
  intros [= <-]. simpl. split; [|done].
  destruct (notify_one_cases pick (workers s)) as [[_ ->]|(j & t & Hj & Hb & _)]; [done|].
  apply not_live_not_blocked in Hl. rewrite Forall_forall in Hl.
  specialize (Hl t (list_elem_of_lookup_2 _ _ _ Hj)). congruence.
Qed.

(** X2: a pool none of whose threads is alive (never started,
    stopped, or started where [hardware_concurrency()] answers 0)
    accepts every call of [dispatch] and [dispatchCallback] and runs
    nothing: the calls only append to the queue and add pending
    shared states, no task is invoked, the handles are untouched and
    no worker can move. *)
Theorem pool_without_workers_runs_nothing acts s s' :
  Forall (λ w, is_live w = false) (workers s) →
  execute acts s = Some s' →
  workers s' = workers s
  ∧ invoked (history s') = invoked (history s)
  ∧ (∃ q, tasks s' = tasks s ++ q)
  ∧ (∃ n, promises s' = promises s ++ replicate n Pending)
  ∧ quiescent s'.
Proof.
  intros Hl. revert s Hl. induction acts as [|a acts IH]; intros s Hl; simpl.
  - intros [= <-]. split; [done|]. split; [done|]. split; [by exists []; rewrite app_nil_r|].
    split; [by exists 0; rewrite app_nil_r|]. intros i. by apply not_live_stuck.
  - destruct (perform a s) as [s1|] eqn:Ha; simpl; [|done]. intros Hex.
    assert (Hs1 : s1 = s ∨ ∃ pick T,
               pushTask pick T (set_promises (promises s ++ [Pending]) s) = Some s1).
    { destruct a as [i|pick function args|pick c]; simpl in Ha.
      - by rewrite not_live_stuck in Ha.
      - destruct (dispatch _ _ _ _) as [[fut s1']|] eqn:Hd; simplify_eq/=.
        apply dispatch_cases in Hd as [(_ & _ & ->)|(f & T & s0 & _ & [= <- <-] & Hp & _)];
          [by left|right; eauto].
      - destruct (dispatchCallback_call _ _ _) as [[fut s1']|] eqn:Hd; simplify_eq/=.
        apply dispatchCallback_cases in Hd
          as [(_ & _ & ->)|(f & cb & T & s0 & _ & _ & [= <- <-] & Hp & _)];
          [by left|right; eauto]. }
    destruct Hs1 as [->|(pick & T & Hp)]; [by apply IH|].
    apply pushTask_no_live in Hp as (Hw & Ht & Hps & Hh); [|done]. simpl in *.
    destruct (IH s1) as (Hw' & Hi' & [q Hq] & [n Hn] & Hquiet); [by rewrite Hw|done|].
    split; [congruence|]. split.
    { rewrite Hi', Hh, invoked_app. simpl. by rewrite app_nil_r. }
    split; [exists (Some T :: q); by rewrite Hq, Ht, <- app_assoc|].
    split; [|done]. exists (S n). by rewrite Hn, Hps, <- app_assoc.
Qed.

(** ** Handles *)

Lemma transition_handles_live i s s' : handles_live s → transition i s s' → handles_live s'.
Proof.
  unfold handles_live. intros Hl Hstep.
  assert (Hlive : ∀ x, workers s !! i = Some x → is_live x = true).
  { intros x Hx. transition_cases Hstep; simplify_eq; unfold is_live; by rewrite Hat. }
  assert (Hgen : ∀ w, Forall (λ w, is_live w = true → joinable w = true)
                         (alter (λ t, Thread (joinable t) w) i (workers s))).
  { intros w. apply Forall_alter; [done|]. intros x Hx Hj _. simpl. by apply Hj, Hlive. }
  transition_cases Hstep; simpl; rewrite ?call_unit_workers; apply Hgen.
Qed.

Lemma wake_handles_live t :
  (is_live t = true → joinable t = true) → is_live (wake t) = true → joinable (wake t) = true.
Proof. destruct t as [jn []]; simpl; auto. Qed.

Lemma pushTask_handles_live pick T s s' :
  handles_live s → pushTask pick T s = Some s' → handles_live s'.
Proof.
  unfold handles_live, pushTask, with_lock. intros Hl. destruct (taskMutex s); [done|].
  intros [= <-]. simpl. apply notify_one_Forall; [|done]. apply wake_handles_live.
Qed.

Lemma perform_handles_live a s s' : handles_live s → perform a s = Some s' → handles_live s'.
Proof.
  intros Hl. destruct a as [i|pick function args|pick c]; simpl.
  - intros ?%worker_step_spec. by eapply transition_handles_live.
  - destruct (dispatch _ _ _ _) as [[fut s1]|] eqn:Hd; simpl; [|done]. intros [= <-].
    apply dispatch_cases in Hd as [(_ & _ & ->)|(f & T & s0 & _ & [= <- <-] & Hp & _)]; [done|].
    eapply pushTask_handles_live; [|done]. exact Hl.
  - destruct (dispatchCallback_call _ _ _) as [[fut s1]|] eqn:Hd; simpl; [|done].
    intros [= <-].
    apply dispatchCallback_cases in Hd
      as [(_ & _ & ->)|(f & cb & T & s0 & _ & _ & [= <- <-] & Hp & _)]; [done|].
    eapply pushTask_handles_live; [|done]. exact Hl.
Qed.

Lemma start_handles_live s s' : handles_live s → start s = Some s' → handles_live s'.
Proof.
  unfold handles_live. intros Hl. rewrite start_spec. intros [= <-]. simpl.
  apply Forall_app. split; [done|]. by apply Forall_replicate.
Qed.

Lemma finish_handles_live fuel i s s' :
  handles_live s → finish fuel i s = Some s' →
  handles_live s' ∧ at_ <$> workers s' !! i = Some Exited.
Proof.
  revert s. induction fuel as [|fuel IH]; intros s Hl; simpl.
  - destruct (at_ <$> workers s !! i) as [[]|] eqn:Hi; try done. by intros [= <-].
  - destruct (at_ <$> workers s !! i) as [w|] eqn:Hi.
    + destruct (worker_step i s) as [s1|] eqn:Hstep; simpl.
      * apply worker_step_spec in Hstep.
        pose proof (transition_handles_live _ _ _ Hl Hstep) as Hl1.
        destruct w; try (by apply IH). by intros [= <-].
      * destruct w; try done. by intros [= <-].
    + destruct (worker_step i s) as [s1|] eqn:Hstep; simpl; [|done].
      apply worker_step_spec in Hstep.
      pose proof (transition_handles_live _ _ _ Hl Hstep) as Hl1. by apply IH.
Qed.

(** What one turn of the loop of [stop] does to the handles. *)
Lemma join_if_joinable_handles fuel i s s' :
  handles_live s → join_if_joinable fuel (Some s) i = Some s' →
  handles_live s'
  ∧ (∀ t', workers s' !! i = Some t' → joinable t' = false)
  ∧ (∀ k t', workers s' !! k = Some t' → joinable t' = true →
             ∃ t, workers s !! k = Some t ∧ joinable t = true).
Proof.
  intros Hl. unfold join_if_joinable, join. simpl.
  destruct (workers s !! i) as [t|] eqn:Hi.
  - destruct (joinable t) eqn:Hj.
    + destruct (finish fuel i s) as [s1|] eqn:Hfin; simpl; [|done]. intros [= <-].
      destruct (finish_handles_live _ _ _ _ Hl Hfin) as [Hl1 Hex]. simpl.
      split; [|split].
      * unfold handles_live in *. simpl. apply Forall_alter; [done|].
        intros x Hx _. simpl. rewrite Hx in Hex. simpl in Hex. injection Hex as Hex.
        unfold is_live. simpl. by rewrite Hex.
      * intros t'. rewrite list_lookup_alter_eq. destruct (workers s1 !! i); [|done].
        by intros [= <-].
      * intros k t'. rewrite list_lookup_alter.
        case_decide as Hk.
        { destruct (workers s1 !! i); [|done]. by intros [= <-]. }
        intros Hk' Hjk.
        assert (Hsame : ∀ fuel s s1, finish fuel i s = Some s1 →
                  ∀ k, i ≠ k → workers s1 !! k = workers s !! k).
        { clear. induction fuel as [|fuel IH]; intros s s1; simpl.
          - destruct (at_ <$> workers s !! i) as [[]|]; try done. by intros [= <-].
          - destruct (worker_step i s) as [s2|] eqn:Hstep; simpl.
            + intros Hfin k Hk.
              assert (Hw : workers s2 !! k = workers s !! k).
              { apply worker_step_spec in Hstep. destruct Hstep; simpl;
                  autorewrite with pool; by rewrite list_lookup_alter_ne. }
              destruct (at_ <$> workers s !! i) as [[]|];
                try (rewrite <- Hw; by eapply IH). by injection Hfin as <-.
            + destruct (at_ <$> workers s !! i) as [[]|]; try done. by intros [= <-]. }
        rewrite (Hsame _ _ _ Hfin k Hk) in Hk'. eauto.
    + intros [= <-]. split; [done|]. split; [|by eauto]. intros t'. rewrite Hi.
      intros [= <-]. done.
  - intros [= <-]. split; [done|]. split; [|by eauto]. intros t'. by rewrite Hi.
Qed.

Lemma join_if_joinable_length fuel i s s' :
  join_if_joinable fuel (Some s) i = Some s' → length (workers s') = length (workers s).
Proof.
  intros Hj.
  assert (Hfin : ∀ fuel s s1, finish fuel i s = Some s1 →
                 length (workers s1) = length (workers s)).
  { clear. induction fuel as [|fuel IH]; intros s s1; simpl.
    - destruct (at_ <$> workers s !! i) as [[]|]; try done. by intros [= <-].
    - destruct (worker_step i s) as [s2|] eqn:Hstep; simpl.
      + assert (Hw : length (workers s2) = length (workers s)).
        { apply worker_step_spec in Hstep. destruct Hstep; simpl;
            autorewrite with pool; apply length_alter. }
        destruct (at_ <$> workers s !! i) as [[]|];
          try (intros H%IH; congruence). by intros [= <-].
      + destruct (at_ <$> workers s !! i) as [[]|]; try done. by intros [= <-]. }
  unfold join_if_joinable, join in Hj. simpl in Hj.
  destruct (workers s !! i) as [t|]; [|by injection Hj as <-].
  destruct (joinable t); [|by injection Hj as <-].
  destruct (finish fuel i s) as [s1|] eqn:Hf; simpl in Hj; [|done].
  injection Hj as <-. simpl. rewrite length_alter. by eapply Hfin.
Qed.

Lemma join_loop_handles fuel l s s' :
  handles_live s → foldl (join_if_joinable fuel) (Some s) l = Some s' →
  handles_live s' ∧ length (workers s') = length (workers s)
  ∧ (∀ k t', workers s' !! k = Some t' → joinable t' = true →
             (k ∉ l) ∧ ∃ t, workers s !! k = Some t ∧ joinable t = true).
Proof.
  revert s. induction l as [|i l IH]; intros s Hl; cbn [foldl].
  - intros [= <-]. split; [done|]. split; [done|]. intros k t' Hk Hj.
    split; [apply not_elem_of_nil|eauto].
  - destruct (join_if_joinable fuel (Some s) i) as [s1|] eqn:Hj;
      [|by rewrite foldl_join_None].
    destruct (join_if_joinable_handles _ _ _ _ Hl Hj) as (Hl1 & Hi1 & Hk1).
    pose proof (join_if_joinable_length _ _ _ _ Hj) as Hlen1.
    intros Hfold. destruct (IH s1 Hl1 Hfold) as (Hl' & Hlen' & Hk').
    split; [done|]. split; [congruence|]. intros k t' Hk Hjk.
    destruct (Hk' k t' Hk Hjk) as (Hnotin & t1 & Ht1 & Hj1).
    split; [|by eauto].
    intros [->|?]%elem_of_cons; [|done]. specialize (Hi1 t1 Ht1). congruence.
Qed.

Lemma stop_handles fuel s s' :
  handles_live s → stop fuel s = Some s' →
  handles_live s' ∧ Forall (λ w, joinable w = false) (workers s')
  ∧ Forall (λ w, is_live w = false) (workers s').
Proof.
  intros Hl. unfold stop. destruct (stop_signal s) as [s1|] eqn:Hsig; simpl; [|done].
  assert (Hl1 : handles_live s1).
  { unfold stop_signal, with_lock in Hsig. destruct (taskMutex s); [done|].
    injection Hsig as <-. unfold handles_live, notify_all in *. simpl.
    apply Forall_fmap. eapply Forall_impl; [exact Hl|]. intros t Ht. unfold compose. by apply wake_handles_live. }
  intros Hfold. destruct (join_loop_handles _ _ _ _ Hl1 Hfold) as (Hl' & Hlen & Hk).
  assert (Hnj : Forall (λ w, joinable w = false) (workers s')).
  { apply Forall_lookup. intros k t' Hk'. destruct (joinable t') eqn:Hj; [|done].
    destruct (Hk k t' Hk' Hj) as [Hnotin _]. exfalso. apply Hnotin, elem_of_seq.
    apply lookup_lt_Some in Hk'. lia. }
  split; [done|]. split; [done|].
  unfold handles_live in Hl'. rewrite Forall_forall in Hl', Hnj. apply Forall_forall.
  intros w Hw. destruct (is_live w) eqn:Hlive; [|done].
  specialize (Hnj w Hw). rewrite (Hl' w Hw Hlive) in Hnj. done.
Qed.

Lemma reachable_handles_live s : reachable s → handles_live s.
Proof.
  induction 1 as [size hw|s s' _ IH Hstart|fuel s s' _ IH Hstop|a s s' _ IH Ha].
  - unfold handles_live. simpl. by apply Forall_replicate.
  - by eapply start_handles_live.
  - by eapply stop_handles.
  - by eapply perform_handles_live.
Qed.

(** ** What [stop] keeps *)

(** A property kept by the critical section of [stop], by the
    transitions of a stopped pool and by [join] is kept by [stop]. *)
Lemma finish_preserves (P : TaskManager → Prop) fuel i s s' :
  (∀ i s s', isRunning s = false → P s → transition i s s' → P s') →
  isRunning s = false → P s → finish fuel i s = Some s' →
  P s' ∧ isRunning s' = false.
Proof.
  intros Hstep. revert s. induction fuel as [|fuel IH]; intros s Hr HP; simpl.
  - destruct (at_ <$> workers s !! i) as [[]|]; try done. by intros [= <-].
  - destruct (worker_step i s) as [s1|] eqn:Hs; simpl.
    + apply worker_step_spec in Hs.
      assert (P s1 ∧ isRunning s1 = false) as [HP1 Hr1].
      { split; [by eapply Hstep|]. by rewrite (transition_isRunning i s s1). }
      destruct (at_ <$> workers s !! i) as [[]|]; try (by apply IH). by intros [= <-].
    + destruct (at_ <$> workers s !! i) as [[]|]; try done. by intros [= <-].
Qed.

Lemma join_loop_preserves (P : TaskManager → Prop) fuel l s s' :
  (∀ i s s', isRunning s = false → P s → transition i s s' → P s') →
  (∀ i s, isRunning s = false → P s →
          P (set_workers (alter (λ t, Thread false (at_ t)) i (workers s)) s)) →
  isRunning s = false → P s →
  foldl (join_if_joinable fuel) (Some s) l = Some s' →
  P s' ∧ isRunning s' = false.
Proof.
  intros Hstep Hjoin. revert s. induction l as [|i l IH]; intros s Hr HP; cbn [foldl].
  - by intros [= <-].
  - destruct (join_if_joinable fuel (Some s) i) as [s1|] eqn:Hj;
      [|by rewrite foldl_join_None].
    assert (P s1 ∧ isRunning s1 = false) as [HP1 Hr1]; [|by apply IH].
    unfold join_if_joinable, join in Hj. simpl in Hj.
    destruct (workers s !! i) as [t|]; [|by injection Hj as <-].
    destruct (joinable t); [|by injection Hj as <-].
    destruct (finish fuel i s) as [s2|] eqn:Hfin; simpl in Hj; [|done].
    injection Hj as <-.
    destruct (finish_preserves P _ _ _ _ Hstep Hr HP Hfin) as [HP2 Hr2].
    split; [by apply Hjoin|done].
Qed.

Lemma stop_preserves (P : TaskManager → Prop) fuel s s' :
  (∀ s, taskMutex s = false →
        P s → P (set_workers (notify_all (workers s)) (set_isRunning false s))) →
  (∀ i s s', isRunning s = false → P s → transition i s s' → P s') →
  (∀ i s, isRunning s = false → P s →
          P (set_workers (alter (λ t, Thread false (at_ t)) i (workers s)) s)) →
  P s → stop fuel s = Some s' → P s' ∧ isRunning s' = false.
Proof.
  intros Hsig Hstep Hjoin HP. unfold stop, stop_signal, with_lock.
  destruct (taskMutex s) eqn:Hm; [done|]. simpl.
  apply join_loop_preserves; [done|done|done|].
  specialize (Hsig s Hm HP). destruct s. simpl in *. by subst.
Qed.

(** A stopped pool takes nothing from the queue. *)
Lemma transition_stopped_queue i s s' :
  isRunning s = false → transition i s s' →
  tasks s' = tasks s ∧ enqueued (history s') = enqueued (history s)
  ∧ dequeued (history s') = dequeued (history s).
Proof.
  intros Hstop Hstep. transition_cases Hstep; simpl; try congruence; [done|].
  autorewrite with pool. split; [done|]. destruct task as [T|]; [|done]. simpl.
  destruct (run_packaged T) as [evs o] eqn:Hrun. simpl.
  rewrite enqueued_app, dequeued_app.
  pose proof (run_packaged_enqueued T) as He. pose proof (run_packaged_dequeued T) as Hd.
  rewrite Hrun in He, Hd. simpl in He, Hd. rewrite He, Hd. by rewrite !app_nil_r.
Qed.

(** The tasks in the queue and in the hands of workers. *)
Lemma in_flight_pending s :
  pool_inv s →
  NoDup (held_ids s ++ queued_ids s)
  ∧ ∀ fid, fid ∈ held_ids s ++ queued_ids s →
           (fid ∉ invoked (history s)) ∧ promises s !! fid = Some Pending.
Proof.
  intros Hinv. pose proof (inv_once s Hinv) as Honce.
  rewrite (inv_fifo s Hinv), (inv_held s Hinv), <- app_assoc in Honce.
  apply NoDup_app in Honce as (_ & Hdisj & Hnd). split; [done|].
  intros fid Hin.
  assert (Hni : fid ∉ invoked (history s)) by (intros Hi; by apply (Hdisj fid)).
  split; [done|]. apply (inv_pending s Hinv); [|done].
  assert (He : fid ∈ enqueued (history s)).
  { rewrite (inv_fifo s Hinv). apply elem_of_app in Hin as [Hh|Hq].
    - apply elem_of_app. left. rewrite (inv_held s Hinv). apply elem_of_app. by right.
    - apply elem_of_app. by right. }
  apply elem_of_enqueued in He. pose proof (inv_alloc s Hinv) as Ha.
  rewrite Forall_forall in Ha. by apply Ha in He.
Qed.

(** X6: in every reachable pool the tasks in the queue and in the
    hands of workers have pairwise distinct shared states, all of
    them pending, and none of them has been invoked. *)
Theorem tasks_in_flight_are_pending_and_distinct s :
  reachable s →
  NoDup (held_ids s ++ queued_ids s)
  ∧ ∀ fid, fid ∈ held_ids s ++ queued_ids s →
           (fid ∉ invoked (history s)) ∧ promises s !! fid = Some Pending.
Proof. intros Hr. by apply in_flight_pending, reachable_pool_inv. Qed.

(** X11: [stop] on a reachable pool, whenever it returns: the flag
    is cleared, every handle is joined and no thread is left alive;
    the queue is exactly as it was; the tasks that workers had
    already popped are run, and no other; the futures of the queued
    tasks stay pending. *)
Theorem stop_finishes_held_tasks_only fuel s s' :
  reachable s → stop fuel s = Some s' →
  isRunning s' = false ∧ tasks s' = tasks s
  ∧ Forall (λ w, joinable w = false ∧ is_live w = false) (workers s')
  ∧ invoked (history s') ≡ₚ invoked (history s) ++ held_ids s
  ∧ (∀ fid, fid ∈ queued_ids s → promises s' !! fid = Some Pending).
Proof.
  intros Hreach Hstop.
  pose proof (reachable_pool_inv s Hreach) as Hinv.
  pose proof (reachable_handles_live s Hreach) as Hl.
  assert (Hinv' : pool_inv s') by (by eapply pool_inv_stop).
  destruct (stop_handles _ _ _ Hl Hstop) as (_ & Hnj & Hnl).
  destruct (stop_preserves
              (λ x, tasks x = tasks s ∧ enqueued (history x) = enqueued (history s)
                    ∧ dequeued (history x) = dequeued (history s)) fuel s s')
    as [(Hts & Hen & Hde) Hr]; try done.
  { intros i x x' Hrx (Ht & He & Hd) Hstep.
    destruct (transition_stopped_queue i x x' Hrx Hstep) as (-> & -> & ->). done. }
  assert (Hheld : held_ids s' = []).
  { unfold held_ids. replace (omap held (workers s')) with (@nil packaged_task); [done|].
    symmetry. clear -Hnl. induction Hnl as [|w ws Hw _ IH]; [done|].
    destruct w as [j []]; simpl in *; done. }
  split; [done|]. split; [done|]. split.
  { rewrite Forall_forall in Hnj, Hnl. apply Forall_forall. intros w Hw. split; auto. }
  split.
  - pose proof (inv_held s' Hinv') as Hh. rewrite Hheld, app_nil_r, Hde in Hh.
    by rewrite <- Hh, (inv_held s Hinv).
  - intros fid Hq. apply (in_flight_pending s' Hinv'). apply elem_of_app. right.
    unfold queued_ids. by rewrite Hts.
Qed.

(** X10: in every reachable pool, between two operations: the mutex
    is free; a thread that has not returned has a joinable handle; no
    worker sleeps once the pool is stopped; tasks leave the queue in
    the order in which they entered it; only dequeued tasks are
    invoked; and no task is enqueued or invoked twice. *)
Theorem reachable_pool_is_consistent s :
  reachable s →
  taskMutex s = false
  ∧ Forall (λ w, is_live w = true → joinable w = true) (workers s)
  ∧ (isRunning s = false → Forall (λ w, is_blocked w = false) (workers s))
  ∧ dequeued (history s) `prefix_of` enqueued (history s)
  ∧ invoked (history s) ⊆ dequeued (history s)
  ∧ NoDup (enqueued (history s)) ∧ NoDup (invoked (history s)).
Proof.
  intros Hreach. pose proof (reachable_pool_inv s Hreach) as Hinv.
  split; [apply (inv_mutex s Hinv)|]. split; [by apply reachable_handles_live|].
  split; [apply (inv_awake s Hinv)|].
  split; [exists (queued_ids s); apply (inv_fifo s Hinv)|].
  split.
  { intros fid Hin. rewrite (inv_held s Hinv). apply elem_of_app. by left. }
  split; [apply (inv_once s Hinv)|].
  pose proof (NoDup_dequeued s (inv_fifo s Hinv) (inv_once s Hinv)) as Hnd. rewrite (inv_held s Hinv) in Hnd.
  by apply NoDup_app in Hnd as (? & _).
Qed.

Lemma reachable_execute acts s s' : reachable s → execute acts s = Some s' → reachable s'.
Proof.
  revert s. induction acts as [|a acts IH]; intros s Hr; simpl.
  - by intros [= <-].
  - destruct (perform a s) as [s1|] eqn:Ha; simpl; [|done].
    apply IH. by eapply reach_perform.
Qed.

(** X9: calling a popped task, in any reachable pool: the shared
    state of the task was pending and receives what the stored lambda
    produced, a value or the exception; no other shared state
    changes; the history grows by the events of the task; the queue
    and the flag are untouched; and the worker is back at the head of
    its loop, able to move again.  A task that throws does not end
    its worker. *)
Theorem called_task_settles_its_own_future i s t T :
  reachable s → workers s !! i = Some t → at_ t = Popped (Some T) →
  promises s !! promise T = Some Pending
  ∧ ∃ s', worker_step i s = Some s'
      ∧ promises s' = <[promise T := Ready (run_packaged T).2]> (promises s)
      ∧ history s' = history s ++ (run_packaged T).1
      ∧ workers s' = alter (λ t, Thread (joinable t) AtLock) i (workers s)
      ∧ tasks s' = tasks s ∧ isRunning s' = isRunning s
      ∧ is_Some (worker_step i s').
Proof.
  intros Hreach Hi Hat. pose proof (reachable_pool_inv s Hreach) as Hinv.
  assert (Hpend : promises s !! promise T = Some Pending).
  { apply (in_flight_pending s Hinv). apply elem_of_app. left.
    unfold held_ids. apply list_elem_of_fmap. exists T. split; [done|].
    apply list_elem_of_omap. exists t. split; [by eapply list_elem_of_lookup_2|].
    unfold held. by rewrite Hat. }
  split; [done|].
  exists (set_worker i AtLock (call_unit (Some T) s)).
  assert (Hstep : worker_step i s = Some (set_worker i AtLock (call_unit (Some T) s))).
  { unfold worker_step. by rewrite Hi, Hat. }
  split; [done|]. simpl. destruct (run_packaged T) as [evs o] eqn:Hrun. simpl.
  unfold set_result. rewrite Hpend.
  repeat (split; [done|]).
  unfold worker_step. simpl. rewrite list_lookup_alter_eq, Hi. simpl.
  rewrite (inv_mutex s Hinv). destruct (isRunning s); simpl; [|by eexists].
  destruct (tasks s); simpl; by eexists.
Qed.

(** X1: [start] on a freshly constructed pool returns.  The vector
    then holds the [size] empty handles that [workers {poolSize}]
    made, followed by one joinable handle per worker: [size] workers,
    or [hw] of them when [size] is 0.  The threads that can move are
    exactly those at the indices from [size] on, the pool serves if
    and only if it has a worker, and the invariant holds. *)
Theorem start_of_constructed_pool size hw :
  ∃ s, start (new_TaskManager size hw) = Some s
     ∧ workers s = replicate size default_thread
                   ++ replicate (if decide (size = 0) then hw else size) (Thread true AtLock)
     ∧ (∀ i, is_Some (worker_step i s)
             ↔ size ≤ i < size + (if decide (size = 0) then hw else size))
     ∧ (serving s ↔ 0 < size ∨ 0 < hw)
     ∧ pool_inv s.
Proof.
  eexists. split; [apply start_spec|]. simpl. split; [done|].
  set (n := if decide (size = 0) then hw else size).
  split; [|split].
  - intros i. unfold worker_step. simpl.
    destruct (decide (i < size)) as [Hlt|Hge].
    + rewrite lookup_app_l by (by rewrite length_replicate).
      rewrite lookup_replicate_2 by done. simpl. split; [by intros [? [=]]|lia].
    + rewrite lookup_app_r by (rewrite length_replicate; lia).
      rewrite length_replicate.
      destruct (decide (i - size < n)) as [Hlt|Hge'].
      * rewrite lookup_replicate_2 by done. simpl. split; [lia|by eexists].
      * assert (replicate n (Thread true AtLock) !! (i - size) = None) as ->
          by (apply lookup_replicate_None; lia).
        split; [by intros [? [=]]|lia].
  - unfold serving. simpl. split.
    + intros [_ Hex]. apply Exists_app in Hex as [Hex|Hex].
      * apply Exists_exists in Hex as (w & Hw & Hlive).
        apply elem_of_replicate in Hw as [-> _]. done.
      * apply Exists_exists in Hex as (w & Hw & _).
        apply elem_of_replicate in Hw as [_ Hn]. subst n. destruct (decide (size = 0)); lia.
    + intros Hpos. split; [done|]. apply Exists_app. right.
      assert (n ≠ 0) by (subst n; destruct (decide (size = 0)); lia).
      destruct n; [done|]. by left.
  - eapply pool_inv_start; [apply pool_inv_new|apply start_spec].
Qed.


(** ** One task at a time *)

Lemma held_set_worker_idle i w s t :
  workers s !! i = Some t → held t = None → held (Thread (joinable t) w) = None →
  omap held (workers (set_worker i w s)) = omap held (workers s).
Proof.
  intros Hi Ht Hw. simpl. eapply held_alter_same; [done|]. simpl. congruence.
Qed.

Lemma held_elem_of (ws : list thread) i t T :
  ws !! i = Some t → at_ t = Popped (Some T) → T ∈ omap held ws.
Proof.
  intros Hi Hat. apply list_elem_of_omap. exists t.
  split; [by eapply list_elem_of_lookup_2|]. unfold held. by rewrite Hat.
Qed.

Lemma transition_round h ps T i s s' :
  promise T = length ps → round h ps T s → transition i s s' → round h ps T s'.
Proof.
  intros Hid Hround Hstep.
  assert (Hkeep : ∀ w, held (Thread true w) = None →
            (∃ t, workers s !! i = Some t ∧ held t = None) →
            omap held (alter (λ t, Thread (joinable t) w) i (workers s))
            = omap held (workers s)).
  { intros w Hw (x & Hx & Hhx). eapply held_alter_same; [done|].
    rewrite Hhx. by destruct w. }
  destruct Hround as [Rq Rh Rhist Rps|Rq Rh Rhist Rps|Rq Rh Rhist Rps].
  - transition_cases Hstep.
    + apply round_queued; simpl; try done. rewrite Hkeep; [done|done|].
      exists t. unfold held. by rewrite Hat.
    + congruence.
    + rewrite Rq in Hq. injection Hq as <- <-.
      apply round_held; simpl; try done.
      * assert (Hp : omap held (alter (λ t, Thread (joinable t) (Popped (Some T))) i
                                     (workers s)) ≡ₚ T :: omap held (workers s)).
        { eapply held_alter_gain; [done| |done]. unfold held. by rewrite Hat. }
        rewrite Rh in Hp. by apply Permutation_singleton_r in Hp.
      * by rewrite Rhist, <- app_assoc.
    + destruct task as [T'|].
      { pose proof (held_elem_of _ _ _ _ Hi Hat) as Hin. rewrite Rh in Hin.
        by apply elem_of_nil in Hin. }
      apply round_queued; simpl; try done. rewrite Hkeep; [done|done|].
      exists t. unfold held. by rewrite Hat.
  - transition_cases Hstep.
    + apply round_held; simpl; try done. rewrite Hkeep; [done|done|].
      exists t. unfold held. by rewrite Hat.
    + apply round_held; simpl; try done. rewrite Hkeep; [done|done|].
      exists t. unfold held. by rewrite Hat.
    + congruence.
    + destruct task as [T'|].
      * assert (Hp : omap held (workers s)
                     ≡ₚ T' :: omap held (alter (λ t, Thread (joinable t) AtLock) i
                                            (workers s))).
        { eapply held_alter_lose; [done| |done]. unfold held. by rewrite Hat. }
        rewrite Rh in Hp. apply Permutation_singleton_l in Hp. injection Hp as <- Hnil.
        apply round_done; simpl; destruct (run_packaged T) as [evs o] eqn:Hrun; simpl.
        -- done.
        -- done.
        -- by rewrite Rhist, <- app_assoc.
        -- unfold set_result. rewrite Rps, Hid.
           rewrite lookup_app_r by done. rewrite Nat.sub_diag. simpl.
           rewrite insert_app_r_alt by done. by rewrite Nat.sub_diag.
      * apply round_held; simpl; try done. rewrite Hkeep; [done|done|].
        exists t. unfold held. by rewrite Hat.
  - transition_cases Hstep.
    + apply round_done; simpl; try done. rewrite Hkeep; [done|done|].
      exists t. unfold held. by rewrite Hat.
    + apply round_done; simpl; try done. rewrite Hkeep; [done|done|].
      exists t. unfold held. by rewrite Hat.
    + congruence.
    + destruct task as [T'|].
      { pose proof (held_elem_of _ _ _ _ Hi Hat) as Hin. rewrite Rh in Hin.
        by apply elem_of_nil in Hin. }
      apply round_done; simpl; try done. rewrite Hkeep; [done|done|].
      exists t. unfold held. by rewrite Hat.
Qed.

Lemma run_round h ps T sched s s' :
  promise T = length ps → round h ps T s → run sched s = Some s' → round h ps T s'.
Proof.
  intros Hid. revert s. induction sched as [|i sched IH]; intros s Hround; simpl.
  - by intros [= <-].
  - destruct (worker_step i s) as [s1|] eqn:Hstep; simpl; [|done].
    apply IH. eapply transition_round; [done..|]. by apply worker_step_spec.
Qed.

Lemma push_round pick body cb s T s0 s1 :
  tasks s = [] → omap held (workers s) = [] →
  make_packaged_task body cb s = (T, s0) → pushTask pick T s0 = Some s1 →
  T = PackagedTask (length (promises s)) body cb
  ∧ round (history s) (promises s) T s1.
Proof.
  intros Hq Hh [= <- <-]. unfold pushTask, with_lock. simpl.
  destruct (taskMutex s); [done|]. intros [= <-]. split; [done|].
  apply round_queued; simpl; try done.
  - by rewrite Hq.
  - by rewrite notify_one_held.
Qed.

Lemma round_ready h ps T s o :
  promise T = length ps → round h ps T s → promises s !! promise T = Some (Ready o) →
  tasks s = [] ∧ omap held (workers s) = []
  ∧ history s = h ++ [Enqueued (promise T); Dequeued (promise T)] ++ (run_packaged T).1
  ∧ promises s = ps ++ [Ready (run_packaged T).2]
  ∧ o = (run_packaged T).2.
Proof.
  intros Hid Hround Hready.
  destruct Hround as [Hq Hh Hhist Hps|Hq Hh Hhist Hps|Hq Hh Hhist Hps];
    rewrite Hps, Hid, lookup_app_r, Nat.sub_diag in Hready by done;
    simpl in Hready; [done|done|].
  by injection Hready as <-.
Qed.

Lemma idle_held s : idle s → omap held (workers s) = [].
Proof. intros [_ Hh]. unfold held_ids in Hh. by apply fmap_nil_inv in Hh. Qed.

Lemma wait_run fut sched s s' :
  wait fut sched s = Some s' →
  ∃ fid o, fut = Future fid ∧ run sched s = Some s'
           ∧ promises s' !! fid = Some (Ready o) ∧ get fut s' = Some o.
Proof.
  destruct fut as [|fid]; [done|]. simpl.
  destruct (run sched s) as [s1|]; simpl; [|done].
  destruct (promises s1 !! fid) as [[|o]|] eqn:Hp; try done. intros [= <-].
  exists fid, o. simpl. by rewrite Hp.
Qed.

Lemma run_frame sched s s' :
  run sched s = Some s' →
  isRunning s' = isRunning s ∧ length (workers s') = length (workers s)
  ∧ poolSize s' = poolSize s.
Proof.
  revert s. induction sched as [|i sched IH]; intros s; simpl.
  - by intros [= <-].
  - destruct (worker_step i s) as [s1|] eqn:Hstep; simpl; [|done].
    intros (-> & -> & ->)%IH. apply worker_step_spec in Hstep.
    assert (Hn : poolSize s1 = poolSize s).
    { destruct Hstep as [| | |t task]; simpl; try done.
      destruct task as [T|]; simpl; [|done]. by destruct (run_packaged T). }
    split; [by eapply transition_isRunning|]. split; [|done].
    destruct Hstep; simpl; autorewrite with pool; by rewrite length_alter.
Qed.

Lemma notify_one_length pick (ws : list thread) :
  length (notify_one pick ws) = length ws.
Proof.
  destruct (notify_one_cases pick ws) as [[_ ->]|(j & t & _ & _ & ->)]; [done|].
  apply length_alter.
Qed.

Lemma pushTask_frame pick T s s' :
  pushTask pick T s = Some s' →
  isRunning s' = isRunning s ∧ length (workers s') = length (workers s)
  ∧ poolSize s' = poolSize s.
Proof.
  unfold pushTask, with_lock. destruct (taskMutex s); [done|]. intros [= <-]. simpl.
  by rewrite notify_one_length.
Qed.

(** One task handed to an idle pool, and waited for. *)
Lemma round_spec pick body cb sched s T s0 s1 s2 :
  idle s →
  make_packaged_task body cb s = (T, s0) → pushTask pick T s0 = Some s1 →
  wait (Future (promise T)) sched s1 = Some s2 →
  T = PackagedTask (length (promises s)) body cb
  ∧ idle s2
  ∧ history s2
    = history s ++ [Enqueued (promise T); Dequeued (promise T)] ++ (run_packaged T).1
  ∧ promises s2 = promises s ++ [Ready (run_packaged T).2]
  ∧ get (Future (promise T)) s2 = Some (run_packaged T).2
  ∧ isRunning s2 = isRunning s ∧ length (workers s2) = length (workers s)
  ∧ poolSize s2 = poolSize s.
Proof.
  intros Hidle Hmk Hp Hw.
  destruct (push_round pick body cb s T s0 s1 (proj1 Hidle) (idle_held s Hidle) Hmk Hp)
    as [HT Hround].
  assert (Hid : promise T = length (promises s)) by (by rewrite HT).
  apply wait_run in Hw as (fid & o & [= <-] & Hrun & Hready & Hget).
  pose proof (run_round _ _ _ _ _ _ Hid Hround Hrun) as Hround2.
  destruct (round_ready _ _ _ _ _ Hid Hround2 Hready) as (Hq & Hh & Hhist & Hps & ->).
  destruct (run_frame _ _ _ Hrun) as (Hr2 & Hl2 & Hn2).
  destruct (pushTask_frame _ _ _ _ Hp) as (Hr1 & Hl1 & Hn1).
  injection Hmk as _ <-. simpl in *.
  assert (Hidle2 : idle s2).
  { split; [done|]. unfold held_ids. by rewrite Hh. }
  split; [done|]. split; [done|]. split; [done|]. split; [done|]. split; [done|].
  split; [congruence|]. split; congruence.
Qed.

Lemma round_exists pick body cb s T s0 :
  pool_inv s → serving s → make_packaged_task body cb s = (T, s0) →
  ∃ s1 sched s2,
    pushTask pick T s0 = Some s1 ∧ wait (Future (promise T)) sched s1 = Some s2.
Proof.
  intros Hinv Hserv Hmk.
  assert (∃ s1, pushTask pick T s0 = Some s1) as [s1 Hp].
  { unfold pushTask, with_lock. injection Hmk as _ <-. simpl.
    rewrite (inv_mutex s Hinv). by eexists. }
  destruct (push_fresh pick body cb s T s0 s1 Hinv Hmk Hp) as (Hinv1 & HT1 & _).
  assert (Hserv1 : serving s1).
  { eapply push_serving; [|done]. by injection Hmk as _ <-. }
  destruct (drain_quiesces (measure s1) s1) as (s2 & Hrun & Hq); [done|].
  exists s1, (drain (measure s1) s1), s2. split; [done|]. simpl. rewrite Hrun. simpl.
  rewrite <- execute_work in Hrun.
  destruct (quiescent_settled s2 T) as [-> _];
    [by eapply execute_pool_inv|by eapply execute_task_inv|by eapply execute_serving
    |done|done].
Qed.

Lemma run_packaged_dispatch_task fid f args :
  run_packaged (dispatch_task fid f args) = ([Invoked fid], f args).
Proof. unfold run_packaged, dispatch_task; simpl. unfold invoke. by destruct (f args). Qed.

Lemma wait_reachable fut sched s s' :
  reachable s → wait fut sched s = Some s' →
  reachable s' ∧ (serving s → serving s').
Proof.
  intros Hr Hw. apply wait_run in Hw as (fid & o & _ & Hrun & _).
  rewrite <- execute_work in Hrun. split; [by eapply reachable_execute|].
  intros Hs. by eapply execute_serving.
Qed.

Lemma dispatch_wait_spec pick function args sched s fut s1 s2 :
  reachable s → idle s →
  dispatch pick function args s = Some (fut, s1) → wait fut sched s1 = Some s2 →
  ∃ f, target function = Some f ∧ fut = Future (length (promises s))
       ∧ reachable s2 ∧ idle s2
       ∧ history s2
         = history s ++ [Enqueued (length (promises s)); Dequeued (length (promises s));
                         Invoked (length (promises s))]
       ∧ promises s2 = promises s ++ [Ready (f args)]
       ∧ get fut s2 = Some (f args)
       ∧ isRunning s2 = isRunning s ∧ length (workers s2) = length (workers s)
       ∧ poolSize s2 = poolSize s
       ∧ (serving s → serving s2).
Proof.
  intros Hreach Hidle Hd Hw.
  assert (Hreach1 : reachable s1).
  { apply (reach_perform (Dispatch pick function args) s); [done|]. simpl. by rewrite Hd. }
  assert (Hserv1 : serving s → serving s1).
  { intros Hs. apply (perform_serving (Dispatch pick function args) s); [done|].
    simpl. by rewrite Hd. }
  destruct (wait_reachable _ _ _ _ Hreach1 Hw) as [Hreach2 Hserv2].
  apply dispatch_cases in Hd as [(_ & -> & _)|(f & T & s0 & Hf & Hmk & Hp & ->)]; [done|].
  destruct (round_spec _ _ _ _ _ _ _ _ _ Hidle Hmk Hp Hw)
    as (HT & Hidle2 & Hhist & Hps & Hget & Hr & Hl & Hn).
  exists f. rewrite HT in *. change (PackagedTask _ _ _) with
    (dispatch_task (length (promises s)) f args) in *.
  rewrite run_packaged_dispatch_task in *. simpl in *. auto 15.
Qed.

Lemma dispatchCallback_wait_spec pick c sched s fut s1 s2 :
  reachable s → idle s →
  dispatchCallback_call pick c s = Some (fut, s1) → wait fut sched s1 = Some s2 →
  ∃ f cb, target (task_of c) = Some f ∧ target (callback_of c) = Some cb
       ∧ fut = Future (length (promises s))
       ∧ reachable s2 ∧ idle s2
       ∧ history s2
         = history s ++ [Enqueued (length (promises s)); Dequeued (length (promises s))]
           ++ (run_packaged (dispatchCallback_task (length (promises s)) c f cb)).1
       ∧ promises s2
         = promises s
           ++ [Ready (run_packaged (dispatchCallback_task (length (promises s)) c f cb)).2]
       ∧ isRunning s2 = isRunning s ∧ length (workers s2) = length (workers s)
       ∧ poolSize s2 = poolSize s
       ∧ (serving s → serving s2).
Proof.
  intros Hreach Hidle Hd Hw.
  assert (Hreach1 : reachable s1).
  { apply (reach_perform (DispatchCallback pick c) s); [done|]. simpl. by rewrite Hd. }
  assert (Hserv1 : serving s → serving s1).
  { intros Hs. apply (perform_serving (DispatchCallback pick c) s); [done|].
    simpl. by rewrite Hd. }
  destruct (wait_reachable _ _ _ _ Hreach1 Hw) as [Hreach2 Hserv2].
  apply dispatchCallback_cases in Hd
    as [(_ & -> & _)|(f & cb & T & s0 & Hf & Hcb & Hmk & Hp & ->)]; [done|].
  destruct (round_spec _ _ _ _ _ _ _ _ _ Hidle Hmk Hp Hw)
    as (HT & Hidle2 & Hhist & Hps & Hget & Hr & Hl & Hn).
  exists f, cb. rewrite HT in *. unfold dispatchCallback_task. simpl in *. auto 15.
Qed.

Lemma dispatch_wait_exists pick function f args s :
  reachable s → serving s → target function = Some f →
  ∃ fut s1 sched s2,
    dispatch pick function args s = Some (fut, s1) ∧ wait fut sched s1 = Some s2.
Proof.
  intros Hreach Hserv Hf. pose proof (reachable_pool_inv s Hreach) as Hinv.
  destruct (make_packaged_task (λ _, invoke f args) None s) as [T s0] eqn:Hmk.
  destruct (round_exists pick _ _ s T s0 Hinv Hserv Hmk) as (s1 & sched & s2 & Hp & Hw).
  exists (Future (promise T)), s1, sched, s2. split; [|done].
  unfold dispatch. rewrite Hf, Hmk, Hp. done.
Qed.

Lemma dispatchCallback_wait_exists pick c f cb s :
  reachable s → serving s →
  target (task_of c) = Some f → target (callback_of c) = Some cb →
  ∃ fut s1 sched s2,
    dispatchCallback_call pick c s = Some (fut, s1) ∧ wait fut sched s1 = Some s2.
Proof.
  intros Hreach Hserv Hf Hcb. pose proof (reachable_pool_inv s Hreach) as Hinv.
  destruct (make_packaged_task (λ _, invoke f (task_args c))
              (Some (λ result, invoke cb (callback_args c result))) s) as [T s0] eqn:Hmk.
  destruct (round_exists pick _ _ s T s0 Hinv Hserv Hmk) as (s1 & sched & s2 & Hp & Hw).
  exists (Future (promise T)), s1, sched, s2. split; [|done].
  destruct c as [function callback args|function callback instance args
                |function callback instance args]; simpl in *;
    [unfold dispatchCallback|unfold dispatchCallback_member
    |unfold dispatchCallback_members]; rewrite Hf, Hcb;
    unfold invoke in *; rewrite Hmk, Hp; done.
Qed.

Lemma run_packaged_dispatchCallback_task fid c f cb :
  run_packaged (dispatchCallback_task fid c f cb)
  = match f (task_args c) with
    | Returned v => ([Invoked fid; CalledBack fid v], void_result (cb (callback_args c v)))
    | Raised e => ([Invoked fid], Raised e)
    end.
Proof. unfold run_packaged, dispatchCallback_task; simpl. unfold invoke. done. Qed.

(** [stop] on an idle pool runs nothing. *)
Lemma stop_idle fuel s s' :
  idle s → stop fuel s = Some s' →
  history s' = history s ∧ promises s' = promises s ∧ tasks s' = tasks s
  ∧ length (workers s') = length (workers s) ∧ isRunning s' = false.
Proof.
  intros Hidle Hstop.
  destruct (stop_preserves
              (λ x, history x = history s ∧ promises x = promises s ∧ tasks x = tasks s
                    ∧ length (workers x) = length (workers s)
                    ∧ omap held (workers x) = []) fuel s s')
    as [(? & ? & ? & ? & _) ?]; try done.
  - intros x _ (? & ? & ? & Hl & Hh). simpl. unfold notify_all.
    rewrite length_fmap. repeat (split; [done|]). fold (notify_all (workers x)).
    by rewrite notify_all_held.
  - intros i x x' Hrx (Ph & Pp & Pq & Pl & Pheld) Hstep.
    transition_cases Hstep; simpl; try congruence.
    + rewrite length_alter. repeat (split; [done|]).
      erewrite held_alter_same; [done|done|]. unfold held. simpl. by rewrite Hat.
    + destruct task as [T|].
      { pose proof (held_elem_of _ _ _ _ Hi Hat) as Hin. rewrite Pheld in Hin.
        by apply elem_of_nil in Hin. }
      simpl. rewrite length_alter. repeat (split; [done|]).
      erewrite held_alter_same; [done|done|]. unfold held. simpl. by rewrite Hat.
  - intros i x _ (? & ? & ? & Hl & Hh). simpl. rewrite length_alter.
    repeat (split; [done|]). by rewrite held_alter_all.
  - repeat (split; [done|]). by apply idle_held.
Qed.


(** X14: [dispatchCallback] (any overload) on an idle reachable
    pool, followed by [wait] on the future.  When [wait] returns, the
    pool is idle again and, if the task callable returned [v], the
    history has grown by one enqueue, one dequeue, the invocation and
    the callback on [v], and the new shared state holds the outcome
    of the callback; if the task callable threw, the callback was not
    called and the new shared state holds the exception.  On a
    serving pool some schedule lets [wait] return. *)
Theorem dispatchCallback_then_wait_on_idle_pool pick c s fut s1 :
  reachable s → idle s →
  dispatchCallback_call pick c s = Some (fut, s1) → valid fut = true →
  (∀ sched s2,
     wait fut sched s1 = Some s2 →
     ∃ f cb, target (task_of c) = Some f ∧ target (callback_of c) = Some cb
          ∧ fut = Future (length (promises s))
          ∧ idle s2
          ∧ match f (task_args c) with
            | Returned v =>
                history s2
                = history s ++ [Enqueued (length (promises s));
                                Dequeued (length (promises s));
                                Invoked (length (promises s));
                                CalledBack (length (promises s)) v]
                ∧ promises s2
                  = promises s ++ [Ready (void_result (cb (callback_args c v)))]
            | Raised e =>
                history s2
                = history s ++ [Enqueued (length (promises s));
                                Dequeued (length (promises s));
                                Invoked (length (promises s))]
                ∧ promises s2 = promises s ++ [Ready (Raised e)]
            end)
  ∧ (serving s → ∃ sched s2, wait fut sched s1 = Some s2).
Proof.
  intros Hreach Hidle Hd Hvalid. split.
  - intros sched s2 Hw.
    destruct (dispatchCallback_wait_spec _ _ _ _ _ _ _ Hreach Hidle Hd Hw)
      as (f & cb & Hf & Hcb & -> & _ & Hidle2 & Hhist & Hps & _).
    exists f, cb. rewrite run_packaged_dispatchCallback_task in Hhist, Hps.
    repeat (split; [done|]). by destruct (f (task_args c)).
  - intros Hserv.
    apply dispatchCallback_cases in Hd as Hc.
    destruct Hc as [(_ & -> & _)|(f & cb & T & s0 & Hf & Hcb & _)]; [done|].
    destruct (dispatchCallback_wait_exists pick c f cb s Hreach Hserv Hf Hcb)
      as (fut' & s1' & sched & s2 & Hd' & Hw).
    rewrite Hd in Hd'. injection Hd' as <- <-. eauto.
Qed.

(** ** The demo program *)

(** The pool of the demo after [start]. *)
Lemma demo_start hw :
  ∃ p, start (new_TaskManager 0 hw) = Some p
       ∧ reachable p ∧ idle p ∧ history p = [] ∧ promises p = []
       ∧ isRunning p = true ∧ length (workers p) = hw
       ∧ (0 < hw → serving p).
Proof.
  eexists. split; [apply start_spec|]. split.
  { eapply reach_start; [apply (reach_new 0 hw)|apply start_spec]. }
  simpl. split.
  { split; [done|]. unfold held_ids. simpl. by rewrite held_replicate. }
  repeat (split; [done|]). split; [by rewrite length_replicate|].
  intros Hpos. split; [done|]. simpl. destruct hw; [lia|]. by left.
Qed.

Ltac next_state H p Hp :=
  apply bind_Some in H as (p & Hp & H); cbv beta iota zeta in H.
Ltac next_future H ret p Hp :=
  apply bind_Some in H as ([ret p] & Hp & H); cbv beta iota zeta in H.

Lemma main_safe hw pick sched fuel out :
  main hw pick sched fuel = Some out →
  result_a out = Returned (VInt 2)
  ∧ result_b out = Returned (Result "result")
  ∧ invalid_reported out = true
  ∧ history (pool_at_exit out) = demo_history
  ∧ promises (pool_at_exit out)
    = [Ready (Returned (VInt 2)); Ready (Returned (Result "result"));
       Ready (Returned VVoid); Ready (Returned VVoid);
       Ready (Returned VVoid); Ready (Returned VVoid)]
  ∧ tasks (pool_at_exit out) = []
  ∧ isRunning (pool_at_exit out) = false
  ∧ length (workers (pool_at_exit out)) = hw
  ∧ Forall (λ w, joinable w = false ∧ is_live w = false) (workers (pool_at_exit out)).
Proof.
  unfold main. intros H.
  destruct (demo_start hw) as (p0 & Hstart & Hre0 & Hid0 & Hh0 & Hp0 & Hr0 & Hl0 & _).
  next_state H p0' Hstart'. rewrite Hstart in Hstart'. injection Hstart' as <-.
  (* first block *)
  next_future H ret1 q1 Hd1. next_state H p1 Hw1. next_state H a Hga.
  destruct (dispatch_wait_spec _ _ _ _ _ _ _ _ Hre0 Hid0 Hd1 Hw1)
    as (f1 & Hf1 & -> & Hre1 & Hid1 & Hh1 & Hp1 & Hg1 & Hr1 & Hl1 & _).
  injection Hf1 as <-. rewrite Hg1 in Hga. injection Hga as <-.
  rewrite Hh0, Hp0 in Hh1. rewrite Hp0 in Hp1. simpl in Hh1, Hp1.
  (* second block *)
  next_future H ret2 q2 Hd2. next_state H p2 Hw2. next_state H b Hgb.
  destruct (dispatch_wait_spec _ _ _ _ _ _ _ _ Hre1 Hid1 Hd2 Hw2)
    as (f2 & Hf2 & -> & Hre2 & Hid2 & Hh2 & Hp2 & Hg2 & Hr2 & Hl2 & _).
  injection Hf2 as <-. rewrite Hg2 in Hgb. injection Hgb as <-.
  rewrite Hh1, Hp1 in Hh2. rewrite Hp1 in Hp2. simpl in Hh2, Hp2.
  (* third block *)
  next_future H ret3 q3 Hd3. next_state H p3 Hw3.
  change (dispatchCallback_call (pick 2) (FreeCallback returns_four prints [VInt 3]) p2
          = Some (ret3, q3)) in Hd3.
  destruct (dispatchCallback_wait_spec _ _ _ _ _ _ _ Hre2 Hid2 Hd3 Hw3)
    as (f3 & cb3 & Hf3 & Hcb3 & -> & Hre3 & Hid3 & Hh3 & Hp3 & Hr3 & Hl3 & _).
  injection Hf3 as <-. injection Hcb3 as <-.
  rewrite Hh2, Hp2 in Hh3. rewrite Hp2 in Hp3. simpl in Hh3, Hp3.
  (* fourth block *)
  next_future H ret4 q4 Hd4. next_state H p4 Hw4.
  change (dispatchCallback_call (pick 3)
            (MemberTaskCallback Component_taskFunc Component_callback caller
               [VInt 1; VStr "test"]) p3 = Some (ret4, q4)) in Hd4.
  destruct (dispatchCallback_wait_spec _ _ _ _ _ _ _ Hre3 Hid3 Hd4 Hw4)
    as (f4 & cb4 & Hf4 & Hcb4 & -> & Hre4 & Hid4 & Hh4 & Hp4 & Hr4 & Hl4 & _).
  injection Hf4 as <-. injection Hcb4 as <-.
  rewrite Hh3, Hp3 in Hh4. rewrite Hp3 in Hp4. simpl in Hh4, Hp4.
  (* fifth block *)
  next_future H ret5 q5 Hd5. next_state H p5 Hw5.
  change (dispatchCallback_call (pick 4)
            (FreeCallback Component_taskFunc prints [caller; VInt 1; VStr "test"]) p4
          = Some (ret5, q5)) in Hd5.
  destruct (dispatchCallback_wait_spec _ _ _ _ _ _ _ Hre4 Hid4 Hd5 Hw5)
    as (f5 & cb5 & Hf5 & Hcb5 & -> & Hre5 & Hid5 & Hh5 & Hp5 & Hr5 & Hl5 & _).
  injection Hf5 as <-. injection Hcb5 as <-.
  rewrite Hh4, Hp4 in Hh5. rewrite Hp4 in Hp5. simpl in Hh5, Hp5.
  (* sixth block *)
  next_future H ret6 q6 Hd6. next_state H p6 Hw6.
  change (dispatchCallback_call (pick 5)
            (MemberCallback taskFunc Component_callback caller [VInt 1; VStr "test"]) p5
          = Some (ret6, q6)) in Hd6.
  destruct (dispatchCallback_wait_spec _ _ _ _ _ _ _ Hre5 Hid5 Hd6 Hw6)
    as (f6 & cb6 & Hf6 & Hcb6 & -> & Hre6 & Hid6 & Hh6 & Hp6 & Hr6 & Hl6 & _).
  injection Hf6 as <-. injection Hcb6 as <-.
  rewrite Hh5, Hp5 in Hh6. rewrite Hp5 in Hp6. simpl in Hh6, Hp6.
  (* the null callback *)
  next_future H ret7 q7 Hd7. injection Hd7 as <- <-. simpl in H.
  (* stop and the destructor *)
  next_state H p7 Hstop. next_state H p8 Hdes. injection H as <-. simpl.
  destruct (stop_idle _ _ _ Hid6 Hstop) as (Hh7 & Hp7 & Hq7 & Hl7 & Hr7).
  destruct (stop_handles _ _ _ (reachable_handles_live _ Hre6) Hstop) as (_ & Hnj & Hnl).
  unfold destroy in Hdes. rewrite Hr7 in Hdes. injection Hdes as <-.
  split; [done|]. split; [done|]. split; [done|].
  split; [by rewrite Hh7, Hh6|]. split; [by rewrite Hp7, Hp6|].
  split; [rewrite Hq7; apply Hid6|]. split; [done|].
  split; [congruence|].
  rewrite Forall_forall in Hnj, Hnl. apply Forall_forall. auto.
Qed.

Lemma main_live hw pick fuel :
  0 < hw → 2 ≤ fuel → ∃ sched, is_Some (main hw pick sched fuel).
Proof.
  intros Hhw Hfuel.
  destruct (demo_start hw) as (p0 & Hstart & Hre0 & Hid0 & _ & _ & _ & _ & Hs0).
  specialize (Hs0 Hhw).
  destruct (dispatch_wait_exists (pick 0) returns_two _ [VInt 1] p0 Hre0 Hs0 eq_refl)
    as (ret1 & q1 & w1 & p1 & Hd1 & Hw1).
  destruct (dispatch_wait_spec _ _ _ _ _ _ _ _ Hre0 Hid0 Hd1 Hw1)
    as (f1 & _ & _ & Hre1 & Hid1 & _ & _ & Hg1 & _ & _ & _ & Hs1).
  specialize (Hs1 Hs0).
  destruct (dispatch_wait_exists (pick 1) Component_taskFunc _
              [caller; VInt 1; VStr "test"] p1 Hre1 Hs1 eq_refl)
    as (ret2 & q2 & w2 & p2 & Hd2 & Hw2).
  destruct (dispatch_wait_spec _ _ _ _ _ _ _ _ Hre1 Hid1 Hd2 Hw2)
    as (f2 & _ & _ & Hre2 & Hid2 & _ & _ & Hg2 & _ & _ & _ & Hs2).
  specialize (Hs2 Hs1).
  destruct (dispatchCallback_wait_exists (pick 2)
              (FreeCallback returns_four prints [VInt 3]) _ _ p2 Hre2 Hs2 eq_refl eq_refl)
    as (ret3 & q3 & w3 & p3 & Hd3 & Hw3).
  destruct (dispatchCallback_wait_spec _ _ _ _ _ _ _ Hre2 Hid2 Hd3 Hw3)
    as (f3 & cb3 & _ & _ & _ & Hre3 & Hid3 & _ & _ & _ & _ & _ & Hs3).
  specialize (Hs3 Hs2).
  destruct (dispatchCallback_wait_exists (pick 3)
              (MemberTaskCallback Component_taskFunc Component_callback caller
                 [VInt 1; VStr "test"]) _ _ p3 Hre3 Hs3 eq_refl eq_refl)
    as (ret4 & q4 & w4 & p4 & Hd4 & Hw4).
  destruct (dispatchCallback_wait_spec _ _ _ _ _ _ _ Hre3 Hid3 Hd4 Hw4)
    as (f4 & cb4 & _ & _ & _ & Hre4 & Hid4 & _ & _ & _ & _ & _ & Hs4).
  specialize (Hs4 Hs3).
  destruct (dispatchCallback_wait_exists (pick 4)
              (FreeCallback Component_taskFunc prints [caller; VInt 1; VStr "test"])
              _ _ p4 Hre4 Hs4 eq_refl eq_refl)
    as (ret5 & q5 & w5 & p5 & Hd5 & Hw5).
  destruct (dispatchCallback_wait_spec _ _ _ _ _ _ _ Hre4 Hid4 Hd5 Hw5)
    as (f5 & cb5 & _ & _ & _ & Hre5 & Hid5 & _ & _ & _ & _ & _ & Hs5).
  specialize (Hs5 Hs4).
  destruct (dispatchCallback_wait_exists (pick 5)
              (MemberCallback taskFunc Component_callback caller [VInt 1; VStr "test"])
              _ _ p5 Hre5 Hs5 eq_refl eq_refl)
    as (ret6 & q6 & w6 & p6 & Hd6 & Hw6).
  destruct (dispatchCallback_wait_spec _ _ _ _ _ _ _ Hre5 Hid5 Hd6 Hw6)
    as (f6 & cb6 & _ & _ & _ & Hre6 & Hid6 & _ & _ & _ & _ & _ & _).
  pose proof (reachable_pool_inv p6 Hre6) as Hinv6.
  destruct (stop_spec fuel Hfuel p6 (inv_mutex _ Hinv6) (inv_handles _ Hinv6))
    as (p7 & Hstop & Hst7 & _).
  exists (λ k, nth k [w1; w2; w3; w4; w5; w6] []).
  unfold main. rewrite Hstart. cbn [mbind option_bind nth].
  rewrite Hd1. cbn [mbind option_bind nth]. rewrite Hw1. cbn [mbind option_bind nth].
  rewrite Hg1. cbn [mbind option_bind nth].
  rewrite Hd2. cbn [mbind option_bind nth]. rewrite Hw2. cbn [mbind option_bind nth].
  rewrite Hg2. cbn [mbind option_bind nth].
  change (dispatchCallback_resolved (pick 2) returns_four prints [VInt 3] p2)
    with (dispatchCallback_call (pick 2) (FreeCallback returns_four prints [VInt 3]) p2).
  rewrite Hd3. cbn [mbind option_bind nth]. rewrite Hw3. cbn [mbind option_bind nth].
  change (dispatchCallback_resolved (pick 3) Component_taskFunc Component_callback
            [caller; VInt 1; VStr "test"] p3)
    with (dispatchCallback_call (pick 3)
            (MemberTaskCallback Component_taskFunc Component_callback caller
               [VInt 1; VStr "test"]) p3).
  rewrite Hd4. cbn [mbind option_bind nth]. rewrite Hw4. cbn [mbind option_bind nth].
  change (dispatchCallback_resolved (pick 4) Component_taskFunc prints
            [caller; VInt 1; VStr "test"] p4)
    with (dispatchCallback_call (pick 4)
            (FreeCallback Component_taskFunc prints [caller; VInt 1; VStr "test"]) p4).
  rewrite Hd5. cbn [mbind option_bind nth]. rewrite Hw5. cbn [mbind option_bind nth].
  change (dispatchCallback_resolved (pick 5) taskFunc Component_callback
            [caller; VInt 1; VStr "test"] p5)
    with (dispatchCallback_call (pick 5)
            (MemberCallback taskFunc Component_callback caller [VInt 1; VStr "test"]) p5).
  rewrite Hd6. cbn [mbind option_bind nth]. rewrite Hw6. cbn [mbind option_bind nth].
  change (dispatchCallback_resolved (pick 6) Component_taskFunc null_function
            [caller; VInt 1; VStr "test"] p6)
    with (Some (InvalidFuture, p6)).
  cbn [mbind option_bind valid]. rewrite Hstop. cbn [mbind option_bind].
  unfold destroy. rewrite (st_flag _ Hst7). cbn [mbind option_bind]. by eexists.
Qed.

(** With no hardware thread reported the pool has no worker, and the
    first [wait] of the demo never returns. *)
Lemma main_stuck pick sched fuel : main 0 pick sched fuel = None.
Proof.
  unfold main. simpl. destruct (sched 0) as [|i w]; reflexivity.
Qed.

(** X12: the demo program, for every number [hw] of hardware
    threads, every choice of notified workers and every bound of
    [stop].  Under every schedule with which [main] returns, it
    printed 2 and "result", reported the invalid call, ran the six
    tasks one after the other with the four callbacks receiving 4,
    "result", "result" and "result", and left a stopped pool with an
    empty queue and [hw] joined handles.  With [0 < hw] and two
    transitions allowed per joined thread there is such a schedule.
    With [hw = 0] there is none: the first [wait] never returns. *)
Theorem demo_prints_its_results hw pick fuel :
  (∀ sched out,
     main hw pick sched fuel = Some out →
     result_a out = Returned (VInt 2)
     ∧ result_b out = Returned (Result "result")
     ∧ invalid_reported out = true
     ∧ history (pool_at_exit out) = demo_history
     ∧ promises (pool_at_exit out)
       = [Ready (Returned (VInt 2)); Ready (Returned (Result "result"));
          Ready (Returned VVoid); Ready (Returned VVoid);
          Ready (Returned VVoid); Ready (Returned VVoid)]
     ∧ tasks (pool_at_exit out) = []
     ∧ isRunning (pool_at_exit out) = false
     ∧ length (workers (pool_at_exit out)) = hw
     ∧ Forall (λ w, joinable w = false ∧ is_live w = false)
              (workers (pool_at_exit out)))
  ∧ (0 < hw → 2 ≤ fuel → ∃ sched, is_Some (main hw pick sched fuel))
  ∧ (hw = 0 → ∀ sched, main hw pick sched fuel = None).
Proof.
  split; [|split].
  - intros sched out. apply main_safe.
  - apply main_live.
  - intros -> sched. apply main_stuck.
Qed.

(** ** Instances *)

Lemma reachable_started_pool : reachable started_pool.
Proof. apply (reach_start (new_TaskManager 1 1)); [apply reach_new|reflexivity]. Qed.

Lemma reachable_scenario_a : reachable scenario_a.
Proof.
  apply (reach_perform (Dispatch 0 returns_two [VInt 1]) started_pool);
    [apply reachable_started_pool|reflexivity].
Qed.

Lemma reachable_scenario_a_popped : reachable scenario_a_popped.
Proof. apply (reach_perform (Work 1) scenario_a); [apply reachable_scenario_a|reflexivity]. Qed.

Lemma idle_started_pool : idle started_pool.
Proof. by split. Qed.

Lemma pool_without_workers_runs_nothing_witness :
  ∃ s', execute [Dispatch 0 returns_two [VInt 1]] (new_TaskManager 2 2) = Some s'
        ∧ workers s' = workers (new_TaskManager 2 2)
        ∧ invoked (history s') = invoked (history (new_TaskManager 2 2))
        ∧ (∃ q, tasks s' = tasks (new_TaskManager 2 2) ++ q)
        ∧ (∃ n, promises s' = promises (new_TaskManager 2 2) ++ replicate n Pending)
        ∧ quiescent s'.
Proof.
  eexists. split; [vm_compute; reflexivity|].
  apply (pool_without_workers_runs_nothing [Dispatch 0 returns_two [VInt 1]]
           (new_TaskManager 2 2)); [repeat constructor|vm_compute; reflexivity].
Defined.


Lemma pushTask_appends_and_wakes_one_witness :
  ∃ s', pushTask 1 (PackagedTask 1 (λ _, Returned VVoid) None) scenario_a_done = Some s'
        ∧ tasks s' = tasks scenario_a_done ++ [Some (PackagedTask 1 (λ _, Returned VVoid) None)]
        ∧ promises s' = promises scenario_a_done
        ∧ isRunning s' = isRunning scenario_a_done
        ∧ length (workers s') = length (workers scenario_a_done)
        ∧ blocked_count s' = pred (blocked_count scenario_a_done)
        ∧ (∀ t, workers scenario_a_done !! 1 = Some t → is_blocked t = true →
                workers s' = alter wake 1 (workers scenario_a_done)).
Proof.
  eexists. split; [vm_compute; reflexivity|].
  apply (pushTask_appends_and_wakes_one 1 (PackagedTask 1 (λ _, Returned VVoid) None)
           scenario_a_done). vm_compute; reflexivity.
Defined.

Lemma pool_inv_scenario_a : pool_inv scenario_a.
Proof. apply reachable_pool_inv, reachable_scenario_a. Qed.

Lemma serving_scenario_a : serving scenario_a.
Proof.
  apply (perform_serving (Dispatch 0 returns_two [VInt 1]) started_pool);
    [apply serving_started_pool|reflexivity].
Qed.

Lemma queued_work_can_be_taken_witness :
  ∃ i s', worker_step i scenario_a = Some s' ∧ measure s' < measure scenario_a.
Proof.
  apply (queued_work_can_be_taken scenario_a pool_inv_scenario_a serving_scenario_a).
  left. discriminate.
Defined.

Lemma tasks_in_flight_are_pending_and_distinct_witness :
  NoDup (held_ids scenario_a_popped ++ queued_ids scenario_a_popped)
  ∧ ∀ fid, fid ∈ held_ids scenario_a_popped ++ queued_ids scenario_a_popped →
           (fid ∉ invoked (history scenario_a_popped))
           ∧ promises scenario_a_popped !! fid = Some Pending.
Proof.
  exact (tasks_in_flight_are_pending_and_distinct scenario_a_popped
           reachable_scenario_a_popped).
Defined.

Lemma fulfilled_future_is_final_witness :
  ∃ s', operate [Stop 2; Start; Client (Dispatch 0 returns_two [VInt 7])] scenario_a_done
        = Some s'
        ∧ promises s' !! 0 = Some (Ready (Returned (VInt 2))).
Proof.
  eexists. split; [vm_compute; reflexivity|].
  apply (fulfilled_future_is_final
           [Stop 2; Start; Client (Dispatch 0 returns_two [VInt 7])] scenario_a_done
           _ 0 (Returned (VInt 2))); vm_compute; reflexivity.
Defined.

Lemma futures_are_fresh_witness :
  ∃ s2 s3,
    operate [Client (Work 1); Stop 2; Start] scenario_a = Some s2
    ∧ dispatch 0 returns_two [VInt 1] s2 = Some (Future 1, s3)
    ∧ 0 < 1 ∧ promises s3 !! 1 = Some Pending.
Proof.
  eexists _, _. split; [vm_compute; reflexivity|]. split; [vm_compute; reflexivity|].
  eapply (futures_are_fresh started_pool 0 scenario_a
            [Client (Work 1); Stop 2; Start] _ 1 _).
  - left. exists 0, returns_two, [VInt 1]. vm_compute; reflexivity.
  - vm_compute; reflexivity.
  - left. exists 0, returns_two, [VInt 1]. vm_compute; reflexivity.
Defined.

Lemma called_task_settles_its_own_future_witness :
  promises scenario_a_popped !! 0 = Some Pending
  ∧ ∃ s', worker_step 1 scenario_a_popped = Some s'
      ∧ promises s' = <[0 := Ready (Returned (VInt 2))]> (promises scenario_a_popped)
      ∧ history s' = history scenario_a_popped ++ [Invoked 0]
      ∧ workers s' = alter (λ t, Thread (joinable t) AtLock) 1 (workers scenario_a_popped)
      ∧ tasks s' = tasks scenario_a_popped
      ∧ isRunning s' = isRunning scenario_a_popped
      ∧ is_Some (worker_step 1 s').
Proof.
  exact (called_task_settles_its_own_future 1 scenario_a_popped _
           (PackagedTask 0 (λ _, invoke (λ _, Returned (VInt 2)) [VInt 1]) None)
           reachable_scenario_a_popped eq_refl eq_refl).
Defined.

Lemma reachable_pool_is_consistent_witness :
  taskMutex scenario_a_popped = false
  ∧ Forall (λ w, is_live w = true → joinable w = true) (workers scenario_a_popped)
  ∧ (isRunning scenario_a_popped = false →
     Forall (λ w, is_blocked w = false) (workers scenario_a_popped))
  ∧ dequeued (history scenario_a_popped) `prefix_of` enqueued (history scenario_a_popped)
  ∧ invoked (history scenario_a_popped) ⊆ dequeued (history scenario_a_popped)
  ∧ NoDup (enqueued (history scenario_a_popped))
  ∧ NoDup (invoked (history scenario_a_popped)).
Proof.
  exact (reachable_pool_is_consistent scenario_a_popped reachable_scenario_a_popped).
Defined.

Lemma stop_finishes_held_tasks_only_witness :
  ∃ s', stop 2 scenario_a_popped = Some s'
        ∧ isRunning s' = false ∧ tasks s' = tasks scenario_a_popped
        ∧ Forall (λ w, joinable w = false ∧ is_live w = false) (workers s')
        ∧ invoked (history s') ≡ₚ invoked (history scenario_a_popped)
                                  ++ held_ids scenario_a_popped
        ∧ (∀ fid, fid ∈ queued_ids scenario_a_popped →
                  promises s' !! fid = Some Pending).
Proof.
  eexists. split; [vm_compute; reflexivity|].
  apply (stop_finishes_held_tasks_only 2 scenario_a_popped);
    [apply reachable_scenario_a_popped|vm_compute; reflexivity].
Defined.

Lemma demo_prints_its_results_witness :
  ∃ out, main 1 (λ _, 0) (λ _, [0; 0]) 2 = Some out
         ∧ result_a out = Returned (VInt 2)
         ∧ result_b out = Returned (Result "result")
         ∧ invalid_reported out = true
         ∧ history (pool_at_exit out) = demo_history
         ∧ promises (pool_at_exit out)
           = [Ready (Returned (VInt 2)); Ready (Returned (Result "result"));
              Ready (Returned VVoid); Ready (Returned VVoid);
              Ready (Returned VVoid); Ready (Returned VVoid)]
         ∧ tasks (pool_at_exit out) = []
         ∧ isRunning (pool_at_exit out) = false
         ∧ length (workers (pool_at_exit out)) = 1
         ∧ Forall (λ w, joinable w = false ∧ is_live w = false)
                  (workers (pool_at_exit out)).
Proof.
  eexists. split; [vm_compute; reflexivity|].
  apply (proj1 (demo_prints_its_results 1 (λ _, 0) 2) (λ _, [0; 0])).
  vm_compute; reflexivity.
Defined.


Lemma dispatchCallback_then_wait_on_idle_pool_witness :
  (∀ sched s2,
     wait (Future 0) sched scenario_c = Some s2 →
     ∃ f cb, target (task_of returns_four_then_print) = Some f
          ∧ target (callback_of returns_four_then_print) = Some cb
          ∧ Future 0 = Future (length (promises started_pool))
          ∧ idle s2
          ∧ match f (task_args returns_four_then_print) with
            | Returned v =>
                history s2
                = history started_pool
                  ++ [Enqueued (length (promises started_pool));
                      Dequeued (length (promises started_pool));
                      Invoked (length (promises started_pool));
                      CalledBack (length (promises started_pool)) v]
                ∧ promises s2
                  = promises started_pool
                    ++ [Ready (void_result
                                 (cb (callback_args returns_four_then_print v)))]
            | Raised e =>
                history s2
                = history started_pool
                  ++ [Enqueued (length (promises started_pool));
                      Dequeued (length (promises started_pool));
                      Invoked (length (promises started_pool))]
                ∧ promises s2 = promises started_pool ++ [Ready (Raised e)]
            end)
  ∧ (serving started_pool → ∃ sched s2, wait (Future 0) sched scenario_c = Some s2).
Proof.
  exact (dispatchCallback_then_wait_on_idle_pool 0 returns_four_then_print started_pool
           (Future 0) scenario_c reachable_started_pool idle_started_pool
           eq_refl eq_refl).
Defined.

End cpool.
